(** * ko: resolution of image references in YAML manifests

    A shallow embedding of
      - pkg/resolve/resolve.go   (ImageReferences, refsFromDoc)
      - pkg/commands/resolver.go (resolveFile, resolveFilesToWriter and the
        change-notification callback of watch mode)
    together with the parts of their libraries they lean on (Go's strings
    package, the yaml.v3 node tree, the go-yit iterators). *)

From Stdlib Require Import Ascii.
From stdpp Require Import base option list strings gmap.
From Equations Require Import Equations.

Set Warnings "-register-all".

(** ** Go's [strings] package, on byte strings *)

Module strings.

(** strings.HasPrefix *)
Fixpoint HasPrefix (s prefix : string) {struct prefix} : bool :=
  match prefix, s with
  | EmptyString, _ => true
  | String a p, String b r => if decide (a = b) then HasPrefix r p else false
  | String _ _, EmptyString => false
  end.

Fixpoint drop (n : nat) (s : string) : string :=
  match n, s with
  | S k, String _ r => drop k r
  | _, _ => s
  end.

(** strings.TrimPrefix *)
Definition TrimPrefix (s prefix : string) : string :=
  if HasPrefix s prefix then drop (String.length prefix) s else s.

Definition code (c : ascii) : N := N_of_ascii c.

(** The six ASCII members of unicode.IsSpace: \t \n \v \f \r and space. *)
Definition asciiSpace (c : ascii) : bool :=
  ((9 <=? code c) && (code c <=? 13) || (code c =? 32))%N.

(** The other members of unicode.IsSpace, as their UTF-8 encodings:
    U+0085 (C2 85), U+00A0 (C2 A0); U+1680 (E1 9A 80), U+2000..U+200A
    (E2 80 80 .. E2 80 8A), U+2028, U+2029 (E2 80 A8, A9), U+202F
    (E2 80 AF), U+205F (E2 81 9F), U+3000 (E3 80 80). *)
Definition space2 (a b : ascii) : bool :=
  ((code a =? 194) && ((code b =? 133) || (code b =? 160)))%N.

Definition space3 (a b c : ascii) : bool :=
  ((code a =? 225) && (code b =? 154) && (code c =? 128)
   || (code a =? 226) && (code b =? 128) &&
        ((128 <=? code c) && (code c <=? 138)
         || (code c =? 168) || (code c =? 169) || (code c =? 175))
   || (code a =? 226) && (code b =? 129) && (code c =? 159)
   || (code a =? 227) && (code b =? 128) && (code c =? 128))%N.

(** strings.TrimLeftFunc(s, unicode.IsSpace): runes are decoded from the
    front and dropped while they are white space. *)
Fixpoint TrimLeftSpace (s : string) : string :=
  match s with
  | EmptyString => s
  | String a r =>
      if asciiSpace a then TrimLeftSpace r
      else match r with
           | EmptyString => s
           | String b r2 =>
               if space2 a b then TrimLeftSpace r2
               else match r2 with
                    | EmptyString => s
                    | String c r3 =>
                        if space3 a b c then TrimLeftSpace r3 else s
                    end
           end
  end.

(** The same scan over the reversed string: [s] is the string read from
    its last byte backwards (utf8.DecodeLastRuneInString). *)
Fixpoint TrimLeftSpace_rev (s : string) : string :=
  match s with
  | EmptyString => s
  | String a r =>
      if asciiSpace a then TrimLeftSpace_rev r
      else match r with
           | EmptyString => s
           | String b r2 =>
               if space2 b a then TrimLeftSpace_rev r2
               else match r2 with
                    | EmptyString => s
                    | String c r3 =>
                        if space3 c b a then TrimLeftSpace_rev r3 else s
                    end
           end
  end.

(** strings.TrimRightFunc(s, unicode.IsSpace) *)
Definition TrimRightSpace (s : string) : string :=
  String.rev (TrimLeftSpace_rev (String.rev s)).

(** strings.TrimSpace *)
Definition TrimSpace (s : string) : string :=
  TrimRightSpace (TrimLeftSpace s).

(** strings.Contains *)
Fixpoint Contains (s substr : string) : bool :=
  HasPrefix s substr ||
  match s with
  | EmptyString => false
  | String _ r => Contains r substr
  end.

End strings.

(** ** gopkg.in/yaml.v3: the node tree *)

Module yaml.

Inductive Kind := DocumentNode | SequenceNode | MappingNode | ScalarNode | AliasNode.

#[global] Instance Kind_eq_dec : EqDecision Kind.
Proof. solve_decision. Defined.

(** yaml.Node, with the fields the resolver reads or writes.  For a scalar
    the decoder stores in [Tag] the short tag it resolved ("!!str", "!!int",
    "!!bool", ...), and the ShortTag method returns it.  [Content] are the
    children in document order: a document's root, a sequence's items, a
    mapping's keys and values alternating; a scalar and an alias have
    none (an alias points at its anchor through another field). *)
Inductive Node := mkNode {
  NKind : Kind;
  Tag : string;
  Value : string;
  Content : list Node }.

Definition ShortTag (n : Node) : string := Tag n.

Fixpoint size (n : Node) : nat :=
  match n with
  | mkNode _ _ _ c => S (list_sum (size <$> c))
  end.

(** A [*yaml.Node] of a batch [docs []*yaml.Node] is identified by where
    the node sits: the index of its document, then the index in [Content]
    at each level below. *)
Definition Path := list nat.

Fixpoint node_at (p : Path) (ns : list Node) : option Node :=
  match p with
  | [] => None
  | i :: p' =>
      match ns !! i with
      | None => None
      | Some n => match p' with [] => Some n | _ => node_at p' (Content n) end
      end
  end.

(** The assignment [node.Value = v] through the pointer at [p]. *)
Fixpoint set_Value (p : Path) (v : string) (ns : list Node) : list Node :=
  match p with
  | [] => ns
  | i :: p' =>
      match ns !! i with
      | None => ns
      | Some n =>
          <[i := match p' with
                 | [] => mkNode (NKind n) (Tag n) v (Content n)
                 | _ => mkNode (NKind n) (Tag n) (Value n) (set_Value p' v (Content n))
                 end]> ns
      end
  end.

Definition Value_at (p : Path) (ns : list Node) : option string :=
  Value <$> node_at p ns.

End yaml.

(** ** github.com/dprotaso/go-yit: iterators over a node tree *)

Module yit.
Import yaml.

(** What an iterator hands out: a [*yaml.Node], that is the place of the
    node in the batch and the node found there. *)
Record NodePtr := mkPtr { addr : Path; deref : Node }.

Definition Predicate := Node → bool.

(** yit.WithKind, yit.WithShortTag, yit.Intersect, yit.StringValue and
    yit.WithPrefix.  The last one is strings.HasPrefix(node.Value, prefix):
    it looks at the value as it stands in the node. *)
Definition WithKind (k : Kind) : Predicate := λ n, bool_decide (NKind n = k).
Definition WithShortTag (t : string) : Predicate := λ n, bool_decide (ShortTag n = t).
Definition Intersect (ps : list Predicate) : Predicate := λ n, forallb (λ p, p n) ps.
Definition StringValue : Predicate := Intersect [WithKind ScalarNode; WithShortTag "!!str"].
Definition WithPrefix (prefix : string) : Predicate := λ n, strings.HasPrefix (Value n) prefix.

(** The children of a node as pointers: [node.Content[i]] for each [i]. *)
Definition children (p : NodePtr) : list NodePtr :=
  imap (λ i c, mkPtr (addr p ++ [i]) c) (Content (deref p)).

(** An iterator is a Go closure returning a node pointer and a flag,
    over private variables.  Here the variables are explicit: [nodes] and [i] of
    FromNodes, and the [stack] of RecurseNodes (its top is the head of the
    list, so pushing [Content] from the last index down to the first puts
    the children on top in document order). *)
Record State := mkState { nodes : list NodePtr; i : nat; stack : list NodePtr }.

(** yit.FromNodes(nodes...): hand out [nodes[i]] and advance. *)
Definition FromNodes_next (s : State) : option (NodePtr * State) :=
  match nodes s !! i s with
  | None => None
  | Some n => Some (n, mkState (nodes s) (S (i s)) (stack s))
  end.

(** it.RecurseNodes(): pop the stack, or else ask the iterator below;
    then push the children of the node that is handed out. *)
Definition RecurseNodes_next (s : State) : option (NodePtr * State) :=
  match stack s with
  | n :: rest => Some (n, mkState (nodes s) (i s) (children n ++ rest))
  | [] =>
      match FromNodes_next s with
      | None => None
      | Some (n, s') => Some (n, mkState (nodes s') (i s') (children n))
      end
  end.

Definition psize (p : NodePtr) : nat := size (deref p).

(** What is left to visit: the termination measure of the loops below. *)
Definition weight (s : State) : nat :=
  list_sum (psize <$> stack s) + list_sum (psize <$> drop (i s) (nodes s)).

Lemma psize_imap (f : nat → Node → NodePtr) (c : list Node) :
  (∀ i x, deref (f i x) = x) → psize <$> imap f c = size <$> c.
Proof.
  revert f. induction c as [|x c IH]; intros f Hf; simpl; [done|].
  unfold psize at 1. rewrite Hf. f_equal. apply IH. intros i y. apply Hf.
Qed.

Lemma psize_children n : psize n = S (list_sum (psize <$> children n)).
Proof.
  destruct n as [a [k t v c]]. unfold children. rewrite psize_imap; done.
Qed.

Lemma RecurseNodes_dec s n s' :
  RecurseNodes_next s = Some (n, s') → weight s' < weight s.
Proof.
  unfold RecurseNodes_next, FromNodes_next, weight. destruct s as [ns k st]. simpl.
  destruct st as [|m rest]; simpl.
  - destruct (ns !! k) as [m|] eqn:Hk; [|done]. intros [= <- <-]. simpl.
    rewrite (drop_S _ _ _ Hk). csimpl. rewrite (psize_children m). lia.
  - intros [= <- <-]. csimpl. rewrite fmap_app, list_sum_app, (psize_children m). lia.
Qed.

(** An iterator: its [next] function, which never grows what is left. *)
Record Iterator := mkIterator {
  next : State → option (NodePtr * State);
  next_dec : ∀ s n s', next s = Some (n, s') → weight s' < weight s }.

(** yit.FromNode(doc).RecurseNodes() *)
Definition RecurseNodes : Iterator := mkIterator RecurseNodes_next RecurseNodes_dec.

Definition FromNode (doc : NodePtr) : State := mkState [doc] 0 [].

Definition inspect {A} (a : A) : {b | a = b} := exist _ a eq_refl.

(** it.Filter(p): [for { node, ok = next(); if !ok { return }; if p(node)
    { return } }]. *)
Equations Filter_next (it : Iterator) (p : Predicate) (s : State) :
    option (NodePtr * State) by wf (weight s) lt :=
  Filter_next it p s with inspect (next it s) := {
    | exist _ None _ => None
    | exist _ (Some (n, s')) H =>
        if p (deref n) then Some (n, s') else Filter_next it p s' }.
Next Obligation. eapply next_dec; eauto. Qed.

Lemma Filter_next_dec it p s n s' :
  Filter_next it p s = Some (n, s') → weight s' < weight s.
Proof.
  revert n s'. funelim (Filter_next it p s); intros m t; [|done].
  match goal with
  | Hn : next _ _ = Some _, IH : ∀ _ _, Filter_next _ _ _ = _ → _ |- _ =>
      pose proof (next_dec _ _ _ _ Hn) as Hlt; destruct (p (deref n));
      [intros [= <- <-]; done | intros Hm; etrans; [apply (IH _ _ Hm) | done]]
  end.
Qed.

Definition Filter (it : Iterator) (p : Predicate) : Iterator :=
  mkIterator (Filter_next it p) (Filter_next_dec it p).

(** The loop [for node, ok := it(); ok; node, ok = it() { ... }] visits
    the nodes the iterator hands out until it is exhausted: [drain] lists
    them in the order of the calls. *)
Equations drain (it : Iterator) (s : State) : list NodePtr by wf (weight s) lt :=
  drain it s with inspect (next it s) := {
    | exist _ None _ => []
    | exist _ (Some (n, s')) H => n :: drain it s' }.
Next Obligation. eapply next_dec; eauto. Qed.

End yit.

(** ** The builder and the publisher (pkg/build, pkg/publish) *)

(** A Go [error] value of the resolver: the two it makes itself with
    fmt.Errorf, and the errors builders and publishers hand back, which it
    passes on untouched (kept by their message). *)
Inductive error :=
  | ErrStrict (ref : string)
  | ErrNotFound (ref : string)
  | ErrExternal (msg : string).

(** The text of [ErrStrict ref]:
    fmt.Errorf("found strict reference but %s is not a valid import path", ref). *)
Definition ErrStrict_message (ref : string) : string :=
  "found strict reference but " +:+ ref +:+ " is not a valid import path".

Module build.
(** build.Interface, over the type of images (v1.Image). *)
Record Interface (Image : Type) := {
  IsSupportedReference : string → bool;
  Build : string → error + Image }.
Arguments IsSupportedReference {Image}.
Arguments Build {Image}.
End build.

Module publish.
(** publish.Interface; the result is the published reference rendered by
    its String method, the only use the resolver makes of it. *)
Record Interface (Image : Type) := {
  Publish : Image → string → error + string }.
Arguments Publish {Image}.
End publish.

(** ** pkg/resolve/resolve.go *)

Module resolve.
Import yaml yit.

Definition koPrefix : string := "ko://".

(** refsFromDoc: the iterator and the state it starts in. *)
Definition refsFromDoc (doc : NodePtr) (strict : bool) : Iterator * State :=
  let it := Filter RecurseNodes StringValue in
  if strict then (Filter it (WithPrefix koPrefix), FromNode doc)
  else (it, FromNode doc).

(** A call the resolver makes on the builder or the publisher. *)
Inductive call := CallBuild (ref : string) | CallPublish (ref : string).

#[global] Instance call_eq_dec : EqDecision call.
Proof. solve_decision. Defined.

(** The errgroup with the sync.Map its goroutines store into: the digests
    stored, the first error returned by a goroutine, and the calls made. *)
Record group := mkGroup {
  sm : gmap string string;
  first_err : option error;
  calls : list call }.

(** What ImageReferences leaves behind: the batch (its nodes mutated in
    place or not), the calls made, and the error returned (None for nil). *)
Record result := mkResult {
  docs_after : list Node;
  calls_made : list call;
  err : option error }.

Section ImageReferences.
Context {Image : Type}.
Variable builder : build.Interface Image.
Variable publisher : publish.Interface Image.
(** The order in which the goroutines of the errgroup run to their end,
    and the order in which a range over the map visits its entries: both
    are up to the Go runtime.  Each goroutine is taken as one
    step, at the point where it returns: its calls are logged together. *)
Variable completion : list string → list string.
Variable iteration :
  list (string * list NodePtr) → list (string * list NodePtr).

(** The body of the inner loop, for one node handed out by the iterator.
    [append(refs[tref], node)] reads nil for an absent key. *)
Definition visit (strict : bool) (refs : gmap string (list NodePtr)) (node : NodePtr) :
    error + gmap string (list NodePtr) :=
  let ref := strings.TrimSpace (Value (deref node)) in
  let tref := strings.TrimPrefix ref koPrefix in
  if build.IsSupportedReference builder tref
  then inr (<[tref := default [] (refs !! tref) ++ [node]]> refs)
  else if strict then inl (ErrStrict ref)
  else inr refs.

Fixpoint visit_all (strict : bool) (refs : gmap string (list NodePtr))
    (nodes : list NodePtr) : error + gmap string (list NodePtr) :=
  match nodes with
  | [] => inr refs
  | node :: rest =>
      match visit strict refs node with
      | inl e => inl e
      | inr refs' => visit_all strict refs' rest
      end
  end.

(** The first loop: walk every document and collect the supported
    references. *)
Fixpoint collect (strict : bool) (refs : gmap string (list NodePtr))
    (docs : list NodePtr) : error + gmap string (list NodePtr) :=
  match docs with
  | [] => inr refs
  | doc :: rest =>
      let '(it, s) := refsFromDoc doc strict in
      match visit_all strict refs (drain it s) with
      | inl e => inl e
      | inr refs' => collect strict refs' rest
      end
  end.

(** One goroutine of the errgroup, for one key of [refs]: Build, then
    Publish, then store the digest.  The group keeps the error of the
    first goroutine that returns one. *)
Definition run (g : group) (ref : string) : group :=
  match build.Build builder ref with
  | inl e =>
      mkGroup (sm g) (Some (default e (first_err g))) (calls g ++ [CallBuild ref])
  | inr img =>
      match publish.Publish publisher img ref with
      | inl e =>
          mkGroup (sm g) (Some (default e (first_err g)))
            (calls g ++ [CallBuild ref; CallPublish ref])
      | inr digest =>
          mkGroup (<[ref := digest]> (sm g)) (first_err g)
            (calls g ++ [CallBuild ref; CallPublish ref])
      end
  end.

(** The second loop and errg.Wait(): one goroutine per key. *)
Definition build_all (refs : gmap string (list NodePtr)) : group :=
  foldl run (mkGroup ∅ None []) (completion (map_to_list refs).*1).

(** The third loop: [for ref, nodes := range refs]. *)
Definition assign (digest : string) (docs : list Node) (nodes : list NodePtr) : list Node :=
  foldl (λ ds node, set_Value (addr node) digest ds) docs nodes.

Fixpoint rewrite_all (digests : gmap string string) (docs : list Node)
    (entries : list (string * list NodePtr)) : list Node * option error :=
  match entries with
  | [] => (docs, None)
  | (ref, nodes) :: rest =>
      match digests !! ref with
      | None => (docs, Some (ErrNotFound ref))
      | Some digest => rewrite_all digests (assign digest docs nodes) rest
      end
  end.

Definition pointers (docs : list Node) : list NodePtr :=
  imap (λ d doc, mkPtr [d] doc) docs.

(** ImageReferences(docs, strict, builder, publisher).  After errg.Wait()
    the source writes [return nil, err]; the function has the one result,
    the error, which is what is returned here. *)
Definition ImageReferences (docs : list Node) (strict : bool) : result :=
  match collect strict ∅ (pointers docs) with
  | inl e => mkResult docs [] (Some e)
  | inr refs =>
      let g := build_all refs in
      match first_err g with
      | Some e => mkResult docs (calls g) (Some e)
      | None =>
          let '(docs', e) := rewrite_all (sm g) docs (iteration (map_to_list refs)) in
          mkResult docs' (calls g) e
      end
  end.

End ImageReferences.

End resolve.

(** ** pkg/commands/resolver.go *)

Module commands.
Import yaml.

Definition bytes := list Byte.byte.

(** []byte("\n---\n"), the delimiter written after every resolved file. *)
Definition delimiter : bytes := [Byte.x0a; Byte.x2d; Byte.x2d; Byte.x2d; Byte.x0a].

(** The separator yaml.Encoder puts before the second and every later
    document of a stream. *)
Definition doc_separator : bytes := [Byte.x2d; Byte.x2d; Byte.x2d; Byte.x0a].

(** *** resolveFile *)

(** The errors resolveFile returns, by the place that makes them. *)
Inductive file_error :=
  | UnableToParseSelector (e : string)
  | ReadFailed (e : string)
  | DecodeFailed (e : string)
  | ErrorEvaluatingSelector (e : string)
  | ErrorResolving (e : error)
  | FailedToEncode (e : string).

Section resolveFile.
Context {Image Selector : Type}.
(** The collaborators: labels.Parse, ioutil.ReadAll(os.Stdin) and
    ioutil.ReadFile, the documents a yaml.Decoder reads from the bytes
    (up to io.EOF, or up to the error it stops at),
    resolve.MatchesSelector, and the encoding of one document by a
    yaml.Encoder with indent 2. *)
Variable labels_Parse : string → string + Selector.
Variable ReadStdin : string + bytes.
Variable ReadFile : string → string + bytes.
Variable Decode : bytes → list Node * option string.
Variable MatchesSelector : Node → Selector → string + bool.
Variable Marshal : Node → string + bytes.
Variable completion : list string → list string.
Variable iteration :
  list (string * list yit.NodePtr) → list (string * list yit.NodePtr).

(** The decoding loop: a document the selector rejects is skipped by
    [continue], any other is appended to [docNodes]. *)
Fixpoint decode_loop (selector : option Selector) (docNodes : list Node)
    (stream : list Node) (stop : option string) : file_error + list Node :=
  match stream with
  | [] =>
      match stop with
      | None => inr docNodes
      | Some e => inl (DecodeFailed e)
      end
  | doc :: rest =>
      match selector with
      | None => decode_loop selector (docNodes ++ [doc]) rest stop
      | Some sel =>
          match MatchesSelector doc sel with
          | inl e => inl (ErrorEvaluatingSelector e)
          | inr false => decode_loop selector docNodes rest stop
          | inr true => decode_loop selector (docNodes ++ [doc]) rest stop
          end
      end
  end.

(** The encoding loop over [docNodes], into one buffer. *)
Fixpoint encode_loop (buf : bytes) (first : bool) (docNodes : list Node) :
    file_error + bytes :=
  match docNodes with
  | [] => inr buf
  | doc :: rest =>
      match Marshal doc with
      | inl e => inl (FailedToEncode e)
      | inr b =>
          encode_loop (buf ++ (if first then [] else doc_separator) ++ b) false rest
      end
  end.

(** resolveFile(ctx, f, builder, pub, so, sto): [selector] is
    so.Selector and [strict] is sto.Strict, the flag ImageReferences of
    resolve.go takes (the call in resolver.go passes ctx and names no
    flag).  Beside the bytes, the calls made on the builder and the
    publisher are kept. *)
Definition resolveFile (f : string) (builder : build.Interface Image)
    (pub : publish.Interface Image) (selector : string) (strict : bool) :
    (file_error + bytes) * list resolve.call :=
  match (if decide (selector = "") then inr None
         else match labels_Parse selector with
              | inl e => inl e
              | inr sel => inr (Some sel)
              end) with
  | inl e => (inl (UnableToParseSelector e), [])
  | inr sel =>
      match (if decide (f = "-") then ReadStdin else ReadFile f) with
      | inl e => (inl (ReadFailed e), [])
      | inr b =>
          let '(stream, stop) := Decode b in
          match decode_loop sel [] stream stop with
          | inl e => (inl e, [])
          | inr docNodes =>
              let r := resolve.ImageReferences builder pub completion iteration
                         docNodes strict in
              match resolve.err r with
              | Some e => (inl (ErrorResolving e), resolve.calls_made r)
              | None =>
                  (encode_loop [] true (resolve.docs_after r), resolve.calls_made r)
              end
          end
      end
  end.

End resolveFile.

(** *** The callback given to graph.New in watch mode *)

Inductive action :=
  | Invalidate (ip : string)   (* builder.Invalidate(ip) *)
  | Resend (key : string).     (* fs <- key *)

#[global] Instance action_eq_dec : EqDecision action.
Proof. solve_decision. Defined.

(** The body of the function passed to sm.Range, for one entry of the
    filename -> import paths map. *)
Definition onEntry (ss : gset string) (key : string) (value : list string) : list action :=
  flat_map (λ ip, if decide (ip ∈ ss) then [Invalidate ip; Resend key] else []) value.

(** The callback, run on the set [ss] of affected import paths over the
    entries of the map in the order sm.Range visits them. *)
Definition onAffected (ss : gset string) (entries : list (string * list string)) : list action :=
  flat_map (λ kv, onEntry ss kv.1 kv.2) entries.

(** *** resolveFilesToWriter: the loop over the futures *)

(** A resolvedFuture and the goroutine behind it: still resolving,
    blocked in [ch <- b], or done with [close(ch)] and nothing sent. *)
Inductive future := Pending | Offered (b : bytes) | Closed.

Record slot := mkSlot { id : nat; file : string; fut : future }.

Inductive status := Looping | Returned | Fatal.

Record state := mkSt {
  fs_open : bool;                    (* fs != nil *)
  futures : list slot;               (* var futures []resolvedFuture *)
  spawned : nat;                     (* goroutines started so far *)
  out : bytes;                       (* what out.Write has been given *)
  logged : list (string * file_error); (* lines of log.Printf / log.Fatalf *)
  sm : gmap string (list string);    (* filename -> import paths *)
  adding : nat;                      (* goroutines in their g.Add loop *)
  st : status }.

Definition init : state := mkSt true [] 0 [] [] ∅ 0 Looping.

(** What can happen next: the three cases of the select, the exit of the
    loop, and the progress of the goroutines. *)
Inductive event :=
  | RecvFile (f : string)   (* case f, ok := <-fs, ok true *)
  | RecvClosed              (* case f, ok := <-fs, ok false *)
  | RecvHead                (* case b, ok := <-bf *)
  | RecvErr (e : string)    (* case err := <-errCh *)
  | Break                   (* no futures left and fs == nil *)
  | Done (k : nat)          (* resolveFile returns in the goroutine of futures[k] *)
  | Added (ok : bool).      (* a goroutine ends its g.Add loop, with or without error *)

Section resolveFilesToWriter.
(** fo.Watch, and what the goroutine started for the [n]-th file name
    received gets from resolveFile: an error, or the bytes with the
    import paths its recording builder saw. *)
Variable Watch : bool.
Variable resolved : nat → string → file_error + (bytes * list string).

Definition set_fut (k : nat) (v : future) (l : list slot) : list slot :=
  match l !! k with
  | Some sl => <[k := mkSlot (id sl) (file sl) v]> l
  | None => l
  end.

Definition step (e : event) (s : state) : option state :=
  let '(mkSt fs_open futures spawned out logged sm adding st) := s in
  match st with
  | Looping =>
      match e with
      | RecvFile f =>
          if fs_open
          then Some (mkSt fs_open (futures ++ [mkSlot spawned f Pending]) (S spawned)
                       out logged sm adding st)
          else None
      | RecvClosed =>
          if fs_open then Some (mkSt false futures spawned out logged sm adding st)
          else None
      | RecvHead =>
          match futures with
          | [] => None
          | bf :: rest =>
              match fut bf with
              | Pending => None
              | Offered b =>
                  Some (mkSt fs_open rest spawned (out ++ b ++ delimiter) logged sm
                          (if Watch then S adding else adding) st)
              | Closed => Some (mkSt fs_open rest spawned out logged sm adding st)
              end
          end
      | RecvErr _ =>
          if Watch then Some (mkSt fs_open futures spawned out logged sm adding Fatal)
          else None
      | Break =>
          match futures with
          | [] => if fs_open then None
                  else Some (mkSt fs_open futures spawned out logged sm adding Returned)
          | _ :: _ => None
          end
      | Done k =>
          match futures !! k with
          | Some (mkSlot n f Pending) =>
              match resolved n f with
              | inl err =>
                  if Watch
                  then Some (mkSt fs_open (set_fut k Closed futures) spawned out
                               (logged ++ [(f, err)]) sm adding st)
                  else Some (mkSt fs_open futures spawned out
                               (logged ++ [(f, err)]) sm adding Fatal)
              | inr (b, ips) =>
                  Some (mkSt fs_open (set_fut k (Offered b) futures) spawned out logged
                          (<[f := ips]> sm) adding st)
              end
          | _ => None
          end
      | Added ok =>
          match adding with
          | 0 => None
          | S a =>
              Some (mkSt fs_open futures spawned out logged sm a
                      (if ok then st else Fatal))
          end
      end
  | _ => None
  end.

(** A run: the events of a schedule, one after the other. *)
Definition exec (evs : list event) (s : state) : option state :=
  foldl (λ acc e, acc ≫= step e) (Some s) evs.

(** The file names received on [fs], in the order of their arrival. *)
Definition received (evs : list event) : list string :=
  omap (λ e, match e with RecvFile f => Some f | _ => None end) evs.

(** What the [n]-th file received contributes to the output. *)
Definition emit (n : nat) (f : string) : bytes :=
  match resolved n f with
  | inr (b, _) => b ++ delimiter
  | inl _ => []
  end.

Definition emitted (fs : list string) : bytes := concat (imap emit fs).

End resolveFilesToWriter.

End commands.

(** * Facts about the string functions *)

Module strings_facts.
Import strings.

Lemma append_cons (x : ascii) (a b : string) :
  String x a +:+ b = String x (a +:+ b).
Proof. reflexivity. Qed.

Lemma append_assoc (a b c : string) : (a +:+ b) +:+ c = a +:+ (b +:+ c).
Proof. induction a as [|x a IH]; [done|]. rewrite !append_cons. by rewrite IH. Qed.

Lemma rev_app_acc (s acc : string) :
  String.rev_app s acc = String.rev_app s "" +:+ acc.
Proof.
  revert acc. induction s as [|x s IH]; intros acc; [done|].
  simpl. rewrite (IH (String x acc)), (IH (String x "")), append_assoc. done.
Qed.

Lemma rev_app_append (u v acc : string) :
  String.rev_app (u +:+ v) acc = String.rev_app v (String.rev_app u acc).
Proof.
  revert acc. induction u as [|x u IH]; intros acc; [done|].
  rewrite append_cons. simpl. apply IH.
Qed.

Lemma HasPrefix_append (p s : string) : HasPrefix (p +:+ s) p = true.
Proof.
  induction p as [|x p IH]; [done|]. rewrite append_cons. simpl.
  by rewrite decide_True.
Qed.

Lemma HasPrefix_inv (s p : string) : HasPrefix s p = true → ∃ t, s = p +:+ t.
Proof.
  revert s. induction p as [|x p IH]; intros s; [by exists s|].
  destruct s as [|y s]; [done|]. simpl. case_decide; [|done]. subst.
  intros [t ->]%IH. by exists t.
Qed.

Lemma Contains_append (a b c : string) : Contains (a +:+ b +:+ c) b = true.
Proof.
  induction a as [|x a IH].
  - change ("" +:+ b +:+ c) with (b +:+ c).
    destruct (b +:+ c) eqn:E; simpl; rewrite <- E, HasPrefix_append; done.
  - rewrite append_cons. simpl. rewrite IH. apply orb_true_r.
Qed.

(** No white space, in any encoding, ends with the byte of a slash;
    so trimming from the right stops at the [//] of [ko://]. *)
Lemma TrimLeftSpace_rev_slashes (u : string) :
  ∃ u', TrimLeftSpace_rev (u +:+ "//:ok") = u' +:+ "//:ok".
Proof.
  remember (String.length u) as n eqn:Hn. revert u Hn.
  induction n as [n IH] using lt_wf_ind. intros u ->.
  destruct u as [|a u]; [by exists ""|].
  rewrite append_cons. cbn [TrimLeftSpace_rev].
  destruct (asciiSpace a).
  { apply (IH (String.length u)); [simpl; lia|done]. }
  destruct u as [|b u].
  { by exists (String a ""). }
  rewrite append_cons.
  destruct (space2 b a).
  { apply (IH (String.length u)); [simpl; lia|done]. }
  destruct u as [|c u].
  { by exists (String a (String b "")). }
  rewrite append_cons.
  destruct (space3 c b a).
  { apply (IH (String.length u)); [simpl; lia|done]. }
  by exists (String a (String b (String c u))).
Qed.

(** White space goes at both ends, in ASCII and as UTF-8 (here U+00A0 in
    front, a tab and U+2028 behind). *)
Example TrimSpace_ex1 : TrimSpace "  ko://a/b  " = "ko://a/b".
Proof. reflexivity. Qed.

Example TrimSpace_ex2 :
  TrimSpace (String "194" (String "160" "x y" +:+ String "009" (String "226" (String "128" (String "168" ""))))) = "x y".
Proof. reflexivity. Qed.

(** Trimming a value that begins with [ko://] keeps the prefix. *)
Lemma TrimSpace_koPrefix (v : string) :
  HasPrefix v "ko://" = true → HasPrefix (TrimSpace v) "ko://" = true.
Proof.
  intros [t ->]%HasPrefix_inv. unfold TrimSpace.
  assert (TrimLeftSpace ("ko://" +:+ t) = "ko://" +:+ t) as -> by done.
  unfold TrimRightSpace, String.rev.
  rewrite rev_app_append. cbn [String.rev_app].
  rewrite (rev_app_acc t "//:ok").
  destruct (TrimLeftSpace_rev_slashes (String.rev_app t "")) as [u' ->].
  rewrite rev_app_append. cbn [String.rev_app].
  apply (HasPrefix_append "ko://").
Qed.

End strings_facts.

(** * The reference walker *)

Module walker.
Import yaml yit resolve.

(** Depth-first, document order: a node, then its children from the first
    to the last, each with all that is below it. *)
Fixpoint preorder (p : Path) (n : Node) {struct n} : list NodePtr :=
  match n with
  | mkNode _ _ _ c =>
      mkPtr p n ::
      (fix below (i : nat) (c : list Node) {struct c} : list NodePtr :=
         match c with
         | [] => []
         | x :: r => preorder (p ++ [i]) x ++ below (S i) r
         end) 0 c
  end.

Definition preorder_of (q : NodePtr) : list NodePtr := preorder (addr q) (deref q).

(** The nodes the loop over [refsFromDoc(doc, strict)] visits. *)
Definition walk (strict : bool) (doc : NodePtr) : list NodePtr :=
  let '(it, s) := refsFromDoc doc strict in drain it s.

(** A scalar node with string content. *)
Definition string_scalar (n : Node) : Prop :=
  NKind n = ScalarNode ∧ ShortTag n = "!!str".

(** What the walker is to hand out, with the strict test on the value as
    it stands in the node. *)
Definition qualifies (strict : bool) (q : NodePtr) : Prop :=
  string_scalar (deref q) ∧
  (strict = true → strings.HasPrefix (Value (deref q)) koPrefix = true).

(** The same with the strict test on the trimmed value. *)
Definition qualifies_trimmed (strict : bool) (q : NodePtr) : Prop :=
  string_scalar (deref q) ∧
  (strict = true →
   strings.HasPrefix (strings.TrimSpace (Value (deref q))) koPrefix = true).

#[global] Instance qualifies_dec strict q : Decision (qualifies strict q).
Proof. unfold qualifies, string_scalar. apply _. Defined.

#[global] Instance qualifies_trimmed_dec strict q : Decision (qualifies_trimmed strict q).
Proof. unfold qualifies_trimmed, string_scalar. apply _. Defined.

Lemma drain_unfold it s :
  drain it s = match next it s with
               | None => []
               | Some (n, s') => n :: drain it s'
               end.
Proof.
  funelim (drain it s);
    match goal with H : next _ _ = _ |- _ => rewrite H end; done.
Qed.

Lemma Filter_next_unfold it p s :
  Filter_next it p s = match next it s with
                       | None => None
                       | Some (n, s') =>
                           if p (deref n) then Some (n, s') else Filter_next it p s'
                       end.
Proof.
  funelim (Filter_next it p s);
    match goal with H : next _ _ = _ |- _ => rewrite H end; done.
Qed.

Lemma preorder_of_unfold q :
  preorder_of q = q :: flat_map preorder_of (children q).
Proof.
  destruct q as [p [k t v c]]. unfold preorder_of, children. simpl. f_equal.
  change (λ (i : nat) (c0 : Node), mkPtr (p ++ [i]) c0)
    with (λ (i : nat) (c0 : Node), mkPtr (p ++ [0 + i]) c0).
  generalize 0 as j. induction c as [|x c IH]; intros j; [done|].
  simpl. rewrite Nat.add_0_r. f_equal. rewrite IH.
  f_equal. apply imap_ext. intros i y _. simpl. do 3 f_equal. lia.
Qed.

(** The stack machine of RecurseNodes visits the trees in pre-order. *)
Lemma drain_RecurseNodes s :
  drain RecurseNodes s =
  flat_map preorder_of (stack s) ++ flat_map preorder_of (drop (i s) (nodes s)).
Proof.
  remember (weight s) as w eqn:Hw. revert s Hw.
  induction w as [w IH] using lt_wf_ind. intros s ->.
  rewrite drain_unfold.
  destruct (next RecurseNodes s) as [[n s']|] eqn:Hn.
  - pose proof (RecurseNodes_dec _ _ _ Hn) as Hlt.
    rewrite (IH _ Hlt s' eq_refl). clear IH Hlt.
    simpl in Hn. unfold RecurseNodes_next, FromNodes_next in Hn.
    destruct s as [ns k stk]. simpl in *. destruct stk as [|m rest].
    + destruct (ns !! k) as [m|] eqn:Hk; [|done]. injection Hn as <- <-. simpl.
      rewrite (drop_S _ _ _ Hk). simpl. rewrite (preorder_of_unfold m). done.
    + injection Hn as <- <-. simpl. rewrite (preorder_of_unfold m), flat_map_app.
      rewrite <- !app_assoc. done.
  - simpl in Hn. unfold RecurseNodes_next, FromNodes_next in Hn.
    destruct s as [ns k stk]. simpl in *. destruct stk; [|done].
    destruct (ns !! k) eqn:Hk; [done|].
    apply lookup_ge_None in Hk. rewrite drop_ge; done.
Qed.

(** A filtered iterator hands out the nodes of the iterator below that
    pass the predicate, in the same order. *)
Lemma drain_Filter it p s :
  drain (Filter it p) s = filter (λ q, p (deref q) = true) (drain it s).
Proof.
  remember (weight s) as w eqn:Hw. revert s Hw.
  induction w as [w IH] using lt_wf_ind. intros s ->.
  rewrite (drain_unfold it s).
  destruct (next it s) as [[n s']|] eqn:Hn.
  - pose proof (next_dec it _ _ _ Hn) as Hlt.
    rewrite filter_cons. destruct (decide (p (deref n) = true)) as [Hp|Hp].
    + rewrite drain_unfold. simpl. rewrite Filter_next_unfold, Hn, Hp.
      f_equal. apply (IH _ Hlt s' eq_refl).
    + rewrite <- (IH _ Hlt s' eq_refl).
      rewrite (drain_unfold _ s), (drain_unfold _ s'). simpl.
      rewrite (Filter_next_unfold it p s), Hn.
      destruct (p (deref n)); done.
  - rewrite drain_unfold. simpl. rewrite Filter_next_unfold, Hn. done.
Qed.

Lemma StringValue_spec n : StringValue n = true ↔ string_scalar n.
Proof.
  unfold StringValue, Intersect, WithKind, WithShortTag, string_scalar. simpl.
  rewrite andb_true_r, andb_true_iff, !bool_decide_eq_true. done.
Qed.

Lemma walk_spec strict doc :
  walk strict doc = filter (qualifies strict) (preorder_of doc).
Proof.
  unfold walk, refsFromDoc. destruct strict.
  - rewrite !drain_Filter, drain_RecurseNodes. simpl.
    rewrite !app_nil_r. rewrite list_filter_filter.
    apply list_filter_iff. intros q. unfold qualifies, WithPrefix.
    rewrite StringValue_spec. tauto.
  - rewrite drain_Filter, drain_RecurseNodes. simpl. rewrite !app_nil_r.
    apply list_filter_iff. intros q. unfold qualifies.
    rewrite StringValue_spec. split; [intros ?; split; [done|discriminate] | tauto].
Qed.

(** C6, as amended.  The loop over refsFromDoc visits the nodes of the
    document in depth-first document order, each node every time it
    qualifies and no other: in non-strict mode the scalars with string
    content, in strict mode those of them whose value, as it stands in the
    node (not trimmed), begins with ko://. *)
Theorem walk_in_document_order strict doc :
  walk strict doc = filter (qualifies strict) (preorder_of doc).
Proof. apply walk_spec. Qed.

End walker.

(** * Pointers into the batch and assignments through them *)

Module store.
Import yaml yit walker.

Lemma node_at_snoc p ns n i :
  node_at p ns = Some n → node_at (p ++ [i]) ns = Content n !! i.
Proof.
  revert ns. induction p as [|j p IH]; intros ns; [done|].
  simpl. destruct (ns !! j) as [m|]; [|done].
  destruct p as [|j' p'].
  - intros [= ->]. simpl. destruct (Content n !! i); done.
  - intros Hn. simpl app. cbv beta iota. apply IH, Hn.
Qed.

Lemma node_at_set_Value p v ns n :
  node_at p ns = Some n →
  node_at p (set_Value p v ns) = Some (mkNode (NKind n) (Tag n) v (Content n)).
Proof.
  revert ns. induction p as [|j p IH]; intros ns; [done|].
  simpl. destruct (ns !! j) as [m|] eqn:Hj; [|done].
  pose proof (lookup_lt_Some _ _ _ Hj) as Hlt.
  simpl. rewrite list_lookup_insert_eq by done.
  destruct p as [|j' p'].
  - intros [= ->]. done.
  - intros Hn. simpl. apply (IH (Content m)), Hn.
Qed.

(** An assignment through one pointer leaves the value read through any
    other pointer as it was. *)
Lemma Value_at_set_Value_ne p q v ns :
  p ≠ q → Value_at q (set_Value p v ns) = Value_at q ns.
Proof.
  unfold Value_at. revert q ns. induction p as [|j p IH]; intros q ns Hne; [done|].
  simpl. destruct (ns !! j) as [m|] eqn:Hj; [|done].
  pose proof (lookup_lt_Some _ _ _ Hj) as Hlt.
  destruct q as [|k q]; [done|]. simpl.
  destruct (decide (j = k)) as [->|Hjk].
  - rewrite list_lookup_insert_eq, Hj by done.
    destruct p as [|j' p'], q as [|k' q']; try done.
    apply (IH (k' :: q') (Content m)). congruence.
  - rewrite list_lookup_insert_ne by done. done.
Qed.

Lemma node_at_set_Value_is_Some p q v ns :
  is_Some (node_at q ns) → is_Some (node_at q (set_Value p v ns)).
Proof.
  revert q ns. induction p as [|j p IH]; intros q ns; [done|].
  simpl. destruct (ns !! j) as [m|] eqn:Hj; [|done].
  pose proof (lookup_lt_Some _ _ _ Hj) as Hlt.
  destruct q as [|k q]; [done|]. simpl.
  destruct (decide (j = k)) as [->|Hjk].
  - rewrite list_lookup_insert_eq, Hj by done.
    destruct p as [|j' p'], q as [|k' q']; try done; simpl; eauto.
    apply (IH (k' :: q') (Content m)).
  - rewrite list_lookup_insert_ne by done. done.
Qed.

(** A sequence of assignments [node.Value = v], in order. *)
Definition apply_writes (docs : list Node) (ws : list (Path * string)) : list Node :=
  foldl (λ ds w, set_Value w.1 w.2 ds) docs ws.

Lemma apply_writes_is_Some ws docs a :
  is_Some (node_at a docs) → is_Some (node_at a (apply_writes docs ws)).
Proof.
  revert docs. induction ws as [|w ws IH]; intros docs H; [done|].
  simpl. apply IH, node_at_set_Value_is_Some, H.
Qed.

Lemma apply_writes_other ws docs a :
  (∀ w, w ∈ ws → w.1 ≠ a) → Value_at a (apply_writes docs ws) = Value_at a docs.
Proof.
  revert docs. induction ws as [|w ws IH]; intros docs H; [done|].
  simpl. rewrite IH by (intros; apply H; by right).
  apply Value_at_set_Value_ne, H. by left.
Qed.

Lemma apply_writes_value ws docs a v :
  (∀ w, w ∈ ws → w.1 = a → w.2 = v) → (∃ w, w ∈ ws ∧ w.1 = a) →
  is_Some (node_at a docs) → Value_at a (apply_writes docs ws) = Some v.
Proof.
  revert docs. induction ws as [|w ws IH]; intros docs Hall [w' [Hin Hw']] Hsome.
  { by apply elem_of_nil in Hin. }
  simpl. destruct (decide (Exists (λ w'', w''.1 = a) ws)) as [Hex|Hnex];
    rewrite Exists_exists in *.
  - apply IH; [|done|by apply node_at_set_Value_is_Some].
    intros; apply Hall; [by right|done].
  - assert (w' = w) as ->.
    { apply elem_of_cons in Hin as [->|Hin]; [done|]. destruct Hnex; eauto. }
    rewrite apply_writes_other by (intros w'' ? ?; apply Hnex; eauto).
    destruct Hsome as [n Hn]. unfold Value_at.
    rewrite Hw', (node_at_set_Value _ _ _ _ Hn). simpl. f_equal.
    apply Hall; [by left|done].
Qed.

(** Every pointer in the pre-order of a document of the batch points at
    the node found at its place. *)
Definition valid (docs : list Node) (q : NodePtr) : Prop :=
  node_at (addr q) docs = Some (deref q).

Lemma valid_children docs q c : valid docs q → c ∈ children q → valid docs c.
Proof.
  unfold valid, children. intros Hq Hc.
  apply elem_of_lookup_imap in Hc as (i & x & -> & Hx). simpl.
  rewrite (node_at_snoc _ _ _ _ Hq). done.
Qed.

Lemma psize_child_lt q c : c ∈ children q → psize c < psize q.
Proof.
  intros Hc. rewrite (psize_children q).
  assert (psize c ≤ list_sum (psize <$> children q)); [|lia].
  induction (children q) as [|x l IH]; [by apply elem_of_nil in Hc|].
  csimpl. apply elem_of_cons in Hc as [->|Hc]; [lia|]. specialize (IH Hc). lia.
Qed.

Lemma valid_preorder docs q q' : valid docs q → q' ∈ preorder_of q → valid docs q'.
Proof.
  remember (psize q) as w eqn:Hw. revert q Hw.
  induction w as [w IH] using lt_wf_ind. intros q -> Hq.
  rewrite preorder_of_unfold. intros [->|Hin]%elem_of_cons; [done|].
  apply list_elem_of_In, in_flat_map in Hin as (c & Hc%list_elem_of_In & Hin%list_elem_of_In).
  eapply (IH (psize c)); eauto using psize_child_lt, valid_children.
Qed.

End store.

(** * ImageReferences *)

Module references.
Import yaml yit resolve walker store.

(** The bare reference of a node: its value trimmed, without [ko://]. *)
Definition bare (q : NodePtr) : string :=
  strings.TrimPrefix (strings.TrimSpace (Value (deref q))) koPrefix.

(** The nodes the first loop visits, over all documents of the batch. *)
Definition walked (strict : bool) (docs : list Node) : list NodePtr :=
  flat_map (walk strict) (pointers docs).

(** The visited nodes whose bare reference is [r]. *)
Definition matched (strict : bool) (docs : list Node) (r : string) : list NodePtr :=
  filter (λ q, bare q = r) (walked strict docs).

Definition get (refs : gmap string (list NodePtr)) (r : string) : list NodePtr :=
  default [] (refs !! r).

Definition nonempty (refs : gmap string (list NodePtr)) : Prop :=
  ∀ r l, refs !! r = Some l → l ≠ [].

Section facts.
Context {Image : Type}.
Variable builder : build.Interface Image.
Variable publisher : publish.Interface Image.
Variable completion : list string → list string.
Variable iteration :
  list (string * list NodePtr) → list (string * list NodePtr).

Definition supported (q : NodePtr) : bool :=
  build.IsSupportedReference builder (bare q).

(** Build then Publish for one reference: the error, or the digest. *)
Definition outcome (r : string) : error + string :=
  match build.Build builder r with
  | inl e => inl e
  | inr img => publish.Publish publisher img r
  end.

Definition collected (r : string) (q : NodePtr) : Prop :=
  bare q = r ∧ supported q = true.

#[local] Instance collected_dec r q : Decision (collected r q).
Proof. unfold collected. apply _. Defined.

Lemma visit_all_inr strict refs l refs' :
  visit_all builder strict refs l = inr refs' →
  (∀ r, get refs' r = get refs r ++ filter (collected r) l) ∧
  (nonempty refs → nonempty refs') ∧
  (strict = true → ∀ q, q ∈ l → supported q = true).
Proof.
  revert refs. induction l as [|q l IH]; intros refs; simpl.
  { intros [= <-]. split_and!; [intros; by rewrite app_nil_r|done|].
    intros _ q Hq. by apply elem_of_nil in Hq. }
  unfold visit. fold (bare q). fold (supported q).
  destruct (supported q) eqn:Hs.
  - intros (Hget & Hne & Hsup)%IH. split_and!.
    + intros r. rewrite Hget. unfold get at 1.
      rewrite filter_cons.
      destruct (decide (bare q = r)) as [<-|Hr].
      * rewrite lookup_insert_eq. simpl. rewrite decide_True by (by split).
        fold (get refs (bare q)). by rewrite <- app_assoc.
      * rewrite lookup_insert_ne by done.
        rewrite decide_False by (by intros [? _]). done.
    + intros Hn. apply Hne. intros r l0.
      destruct (decide (bare q = r)) as [<-|Hr].
      * rewrite lookup_insert_eq. intros [= <-]. by destruct (default [] _).
      * rewrite lookup_insert_ne by done. apply Hn.
    + intros Hst q' [->|Hq']%elem_of_cons; [done|]. by apply Hsup.
  - destruct strict; [done|].
    intros (Hget & Hne & Hsup)%IH. split_and!; [|done|done].
    intros r. rewrite Hget, filter_cons.
    rewrite decide_False; [done|]. intros [_ ?]. congruence.
Qed.

Lemma visit_all_inl strict refs l e :
  visit_all builder strict refs l = inl e →
  strict = true ∧
  ∃ q, q ∈ l ∧ supported q = false ∧
       e = ErrStrict (strings.TrimSpace (Value (deref q))).
Proof.
  revert refs. induction l as [|q l IH]; intros refs; simpl; [done|].
  unfold visit. fold (bare q). fold (supported q).
  destruct (supported q) eqn:Hs.
  - intros (? & q' & ? & ? & ?)%IH. split; [done|]. exists q'.
    split_and!; [by right|done..].
  - destruct strict.
    + intros [= <-]. split; [done|]. exists q. split_and!; [by left|done..].
    + intros (? & _)%IH. done.
Qed.

Lemma collect_inr strict refs ds refs' :
  collect builder strict refs ds = inr refs' →
  (∀ r, get refs' r = get refs r ++ filter (collected r) (flat_map (walk strict) ds)) ∧
  (nonempty refs → nonempty refs') ∧
  (strict = true → ∀ q, q ∈ flat_map (walk strict) ds → supported q = true).
Proof.
  revert refs. induction ds as [|d ds IH]; intros refs; simpl.
  { intros [= <-]. split_and!; [intros; by rewrite app_nil_r|done|].
    intros _ q Hq. by apply elem_of_nil in Hq. }
  fold (walk strict d). unfold walk at 1.
  destruct (refsFromDoc d strict) as [it s] eqn:Hit.
  assert (drain it s = walk strict d) as -> by (unfold walk; by rewrite Hit).
  destruct (visit_all builder strict refs (walk strict d)) as [e|refs1] eqn:Hv; [done|].
  apply visit_all_inr in Hv as (Hget1 & Hne1 & Hsup1).
  intros (Hget & Hne & Hsup)%IH. split_and!.
  - intros r. rewrite Hget, Hget1, filter_app, app_assoc. done.
  - auto.
  - intros Hst q [Hq|Hq]%elem_of_app; auto.
Qed.

Lemma collect_inl strict refs ds e :
  collect builder strict refs ds = inl e →
  strict = true ∧
  ∃ q, q ∈ flat_map (walk strict) ds ∧ supported q = false ∧
       e = ErrStrict (strings.TrimSpace (Value (deref q))).
Proof.
  revert refs. induction ds as [|d ds IH]; intros refs; simpl; [done|].
  fold (walk strict d). unfold walk at 1.
  destruct (refsFromDoc d strict) as [it s] eqn:Hit.
  assert (drain it s = walk strict d) as -> by (unfold walk; by rewrite Hit).
  destruct (visit_all builder strict refs (walk strict d)) as [e'|refs1] eqn:Hv.
  - intros [= <-]. apply visit_all_inl in Hv as (? & q & ? & ? & ?).
    split; [done|]. exists q. split_and!; [apply elem_of_app; by left|done..].
  - intros (? & q & ? & ? & ?)%IH.
    split; [done|]. exists q. split_and!; [apply elem_of_app; by right|done..].
Qed.

(** The calls of one goroutine, and the error it returns if any. *)
Definition task_calls (r : string) : list call :=
  match build.Build builder r with
  | inl _ => [CallBuild r]
  | inr _ => [CallBuild r; CallPublish r]
  end.

Definition failure (r : string) : option error :=
  match outcome r with
  | inl e => Some e
  | inr _ => None
  end.

Lemma foldl_run ks g :
  calls (foldl (run builder publisher) g ks) = calls g ++ flat_map task_calls ks ∧
  first_err (foldl (run builder publisher) g ks) =
    from_option Some (head (omap failure ks)) (first_err g) ∧
  (∀ r, sm (foldl (run builder publisher) g ks) !! r =
        match outcome r with
        | inr d => if decide (r ∈ ks) then Some d else sm g !! r
        | inl _ => sm g !! r
        end).
Proof.
  revert g. induction ks as [|k ks IH]; intros g.
  { simpl. split_and!; [by rewrite app_nil_r|by destruct (first_err g)|].
    intros r. by destruct (outcome r). }
  simpl foldl. destruct (IH (run builder publisher g k)) as (Hc & He & Hs).
  rewrite Hc, He. clear Hc He IH.
  split_and!.
  - unfold run, task_calls. simpl.
    destruct (build.Build builder k) as [e|img]; simpl; [by rewrite <- app_assoc|].
    destruct (publish.Publish publisher img k); simpl; by rewrite <- app_assoc.
  - unfold run, failure, outcome. simpl.
    destruct (build.Build builder k) as [e|img]; simpl.
    { by destruct (first_err g). }
    destruct (publish.Publish publisher img k); simpl; by destruct (first_err g).
  - intros r. rewrite Hs. clear Hs. unfold run.
    destruct (outcome r) as [e|d] eqn:Hr.
    + unfold outcome in Hr.
      destruct (build.Build builder k) as [e'|img] eqn:Hb; simpl; [done|].
      destruct (publish.Publish publisher img k) eqn:Hp; simpl; [done|].
      rewrite lookup_insert_ne; [done|]. intros ->. rewrite Hb, Hp in Hr. done.
    + destruct (decide (r ∈ ks)) as [Hin|Hnin].
      { rewrite (decide_True (P := r ∈ k :: ks)) by (by right). done. }
      destruct (decide (r = k)) as [->|Hne].
      * rewrite (decide_True (P := k ∈ k :: ks)) by (by left). unfold outcome in Hr.
        destruct (build.Build builder k) as [e'|img]; [done|]. rewrite Hr. simpl.
        by rewrite lookup_insert_eq.
      * rewrite (decide_False (P := r ∈ k :: ks))
          by (intros [?|?]%elem_of_cons; done).
        destruct (build.Build builder k) as [e'|img]; simpl; [done|].
        destruct (publish.Publish publisher img k); simpl; [done|].
        by rewrite lookup_insert_ne.
Qed.

Lemma filter_build ks r :
  NoDup ks →
  filter (λ c, c = CallBuild r) (flat_map task_calls ks) =
  if decide (r ∈ ks) then [CallBuild r] else [].
Proof.
  induction 1 as [|k ks Hk Hnd IH]; simpl; [done|].
  rewrite filter_app, IH. clear IH.
  assert (filter (λ c, c = CallBuild r) (task_calls k) =
          if decide (r = k) then [CallBuild r] else []) as ->.
  { unfold task_calls. destruct (build.Build builder k);
      rewrite !filter_cons, ?filter_nil;
      destruct (decide (r = k)) as [->|];
      rewrite ?decide_True, ?decide_False by congruence; done. }
  repeat case_decide; subst; try done; exfalso; set_solver.
Qed.

Lemma filter_publish ks r :
  NoDup ks →
  length (filter (λ c, c = CallPublish r) (flat_map task_calls ks)) ≤ 1.
Proof.
  induction 1 as [|k ks Hk Hnd IH]; simpl; [lia|].
  rewrite filter_app, length_app.
  destruct (decide (r = k)) as [->|Hne].
  - assert (filter (λ c, c = CallPublish k) (flat_map task_calls ks) = []) as ->.
    { clear IH Hnd. induction ks as [|k' ks IH]; [done|]. simpl.
      rewrite filter_app, IH by (intros ?; apply Hk; by right).
      rewrite app_nil_r. unfold task_calls.
      assert (k ≠ k') by (intros ->; apply Hk; by left).
      destruct (build.Build builder k');
        rewrite !filter_cons, ?filter_nil, ?decide_False by congruence; done. }
    unfold task_calls. destruct (build.Build builder k);
      rewrite !filter_cons, ?filter_nil;
      repeat case_decide; try congruence; simpl; lia.
  - assert (filter (λ c, c = CallPublish r) (task_calls k) = []) as ->; [|simpl; lia].
    unfold task_calls. destruct (build.Build builder k);
      rewrite !filter_cons, ?filter_nil, ?decide_False by congruence; done.
Qed.

(** The assignments of the third loop, when every key has its digest. *)
Definition writes (digests : gmap string string)
    (entries : list (string * list NodePtr)) : list (Path * string) :=
  flat_map (λ e, (λ q, (addr q, default "" (digests !! e.1))) <$> e.2) entries.

Lemma assign_writes d docs ns :
  assign d docs ns = apply_writes docs ((λ q, (addr q, d)) <$> ns).
Proof.
  unfold assign, apply_writes. revert docs.
  induction ns as [|q ns IH]; intros docs; [done|]. simpl. apply IH.
Qed.

Lemma rewrite_all_ok digests docs entries :
  (∀ e, e ∈ entries → is_Some (digests !! e.1)) →
  rewrite_all digests docs entries = (apply_writes docs (writes digests entries), None).
Proof.
  revert docs. induction entries as [|[r ns] es IH]; intros docs Hall; [done|].
  simpl. destruct (Hall (r, ns)) as [d Hd]; [by left|]. simpl in Hd. rewrite Hd.
  rewrite IH by (intros; apply Hall; by right).
  unfold apply_writes at 2. rewrite foldl_app. fold (apply_writes docs).
  simpl. by rewrite assign_writes.
Qed.

Lemma elem_of_writes digests entries w :
  w ∈ writes digests entries ↔
  ∃ e q, e ∈ entries ∧ q ∈ e.2 ∧ w = (addr q, default "" (digests !! e.1)).
Proof.
  unfold writes. rewrite list_elem_of_In, in_flat_map. split.
  - intros (e & He%list_elem_of_In & Hw%list_elem_of_In).
    apply list_elem_of_fmap in Hw as (q & -> & Hq). eauto.
  - intros (e & q & He & Hq & ->). exists e. split; [by apply list_elem_of_In|].
    apply list_elem_of_In, list_elem_of_fmap. eauto.
Qed.

Lemma head_omap_None {A B} (f : A → option B) (l : list A) x :
  head (omap f l) = None → x ∈ l → f x = None.
Proof.
  induction l as [|y l IH]; [by intros _ ?%elem_of_nil|].
  simpl. destruct (f y) eqn:Hy; [done|].
  intros H [->|Hx]%elem_of_cons; auto.
Qed.

Lemma walked_valid strict docs q : q ∈ walked strict docs → valid docs q.
Proof.
  unfold walked, pointers.
  intros (d & Hd%list_elem_of_In & Hq%list_elem_of_In)%list_elem_of_In%in_flat_map.
  apply elem_of_lookup_imap in Hd as (i & doc & -> & Hdoc).
  rewrite walk_spec in Hq. apply list_elem_of_filter in Hq as [_ Hq].
  eapply valid_preorder; [|done]. unfold valid. simpl. by rewrite Hdoc.
Qed.

Lemma walked_qualifies strict docs q : q ∈ walked strict docs → qualifies strict q.
Proof.
  unfold walked.
  intros (d & _ & Hq%list_elem_of_In)%list_elem_of_In%in_flat_map.
  rewrite walk_spec in Hq. by apply list_elem_of_filter in Hq as [? _].
Qed.

(** The reference index the first loop builds. *)
Lemma collect_index strict docs refs :
  collect builder strict ∅ (pointers docs) = inr refs →
  (∀ r, get refs r = filter (collected r) (walked strict docs)) ∧
  (∀ r l, refs !! r = Some l → l = filter (collected r) (walked strict docs) ∧ l ≠ []) ∧
  (∀ r, filter (collected r) (walked strict docs) ≠ [] → is_Some (refs !! r)).
Proof.
  intros (Hget & Hne & _)%collect_inr.
  assert (nonempty refs) as Hn by (apply Hne; intros ??; by rewrite lookup_empty).
  assert (∀ r, get refs r = filter (collected r) (walked strict docs)) as Hg.
  { intros r. rewrite Hget. unfold get. by rewrite lookup_empty. }
  split_and!; [done| |].
  - intros r l Hl. split; [|by eapply Hn]. rewrite <- Hg. unfold get. by rewrite Hl.
  - intros r Hr. rewrite <- Hg in Hr. unfold get in Hr.
    destruct (refs !! r); [eauto|done].
Qed.

Lemma collect_fails strict docs :
  (∃ e, collect builder strict ∅ (pointers docs) = inl e) ↔
  strict = true ∧ ∃ q, q ∈ walked strict docs ∧ supported q = false.
Proof.
  split.
  - intros [e (? & q & ? & ? & _)%collect_inl]. eauto.
  - intros (Hst & q & Hq & Hs).
    destruct (collect builder strict ∅ (pointers docs)) as [e|refs] eqn:Hc; [eauto|].
    apply collect_inr in Hc as (_ & _ & Hsup).
    rewrite (Hsup Hst q Hq) in Hs. done.
Qed.

(** The error of the first loop is that of the first node of the walk
    whose reference the builder does not support. *)
Lemma visit_all_first strict refs l e :
  visit_all builder strict refs l = inl e →
  ∃ l1 q l2, l = l1 ++ q :: l2 ∧ (∀ q0, q0 ∈ l1 → supported q0 = true) ∧
    supported q = false ∧ e = ErrStrict (strings.TrimSpace (Value (deref q))).
Proof.
  revert refs. induction l as [|q l IH]; intros refs; simpl; [done|].
  unfold visit. fold (bare q). fold (supported q).
  destruct (supported q) eqn:Hs.
  - intros (l1 & q' & l2 & -> & Hl1 & Hq' & ->)%IH. exists (q :: l1), q', l2.
    split_and!; [done| |done..]. intros q0 [->|?]%elem_of_cons; auto.
  - destruct strict.
    + intros [= <-]. exists [], q, l. split_and!; [done| |done..].
      by intros q0 ?%elem_of_nil.
    + intros (? & _)%visit_all_inl. done.
Qed.

Lemma collect_first strict refs ds e :
  collect builder strict refs ds = inl e →
  ∃ l1 q l2, flat_map (walk strict) ds = l1 ++ q :: l2 ∧
    (∀ q0, q0 ∈ l1 → supported q0 = true) ∧
    supported q = false ∧ e = ErrStrict (strings.TrimSpace (Value (deref q))).
Proof.
  revert refs. induction ds as [|d ds IH]; intros refs; simpl; [done|].
  fold (walk strict d). unfold walk at 1.
  destruct (refsFromDoc d strict) as [it s] eqn:Hit.
  assert (drain it s = walk strict d) as -> by (unfold walk; by rewrite Hit).
  destruct (visit_all builder strict refs (walk strict d)) as [e'|refs1] eqn:Hv.
  - intros [= <-]. apply visit_all_first in Hv as (l1 & q & l2 & -> & Hl1 & Hq & ->).
    exists l1, q, (l2 ++ flat_map (walk strict) ds).
    split_and!; [by rewrite <- app_assoc|done..].
  - intros Hc. pose proof Hc as (Hst & _)%collect_inl.
    apply IH in Hc as (l1 & q & l2 & -> & Hl1 & Hq & ->).
    apply visit_all_inr in Hv as (_ & _ & Hsup).
    exists (walk strict d ++ l1), q, l2.
    split_and!; [by rewrite <- app_assoc| |done..].
    intros q0 [?|?]%elem_of_app; auto.
Qed.

(** C4, as amended.  In strict mode, when a node of the walk (its value
    begins with ko://) carries a bare reference the builder does not
    support, ImageReferences returns the strict-reference error of the
    first node of the walk that does: every node walked before it is
    supported.  The reference in the text of the error is the trimmed
    value of that first node, ko:// prefix included; no call is made and
    the batch is left as it was. *)
Theorem strict_violation_fails_batch docs q :
  q ∈ walked true docs → supported q = false →
  ∃ before q' after,
    walked true docs = before ++ q' :: after ∧
    (∀ q0, q0 ∈ before → supported q0 = true) ∧ supported q' = false ∧
    ImageReferences builder publisher completion iteration docs true =
      mkResult docs [] (Some (ErrStrict (strings.TrimSpace (Value (deref q'))))) ∧
    strings.HasPrefix (strings.TrimSpace (Value (deref q'))) koPrefix = true ∧
    strings.Contains (ErrStrict_message (strings.TrimSpace (Value (deref q'))))
      (strings.TrimSpace (Value (deref q'))) = true.
Proof.
  intros Hq Hs.
  destruct (proj2 (collect_fails true docs)) as [e He]; [eauto|].
  pose proof He as (before & q' & after & Hw & Hb & Hs' & ->)%collect_first.
  exists before, q', after. split_and!; [done..| | |].
  - unfold ImageReferences. by rewrite He.
  - apply strings_facts.TrimSpace_koPrefix.
    assert (q' ∈ walked true docs) as Hq'.
    { unfold walked. rewrite Hw. apply elem_of_app. right. by left. }
    apply walked_qualifies in Hq' as [_ Hp]. by apply Hp.
  - apply strings_facts.Contains_append.
Qed.

Hypothesis completion_perm : ∀ l, completion l ≡ₚ l.
Hypothesis iteration_perm : ∀ l, iteration l ≡ₚ l.

(** The keys for which a goroutine runs, in the order they finish. *)
Lemma keys_spec (refs : gmap string (list NodePtr)) :
  NoDup (completion (map_to_list refs).*1) ∧
  ∀ r, r ∈ completion (map_to_list refs).*1 ↔ is_Some (refs !! r).
Proof.
  split.
  - rewrite completion_perm. apply NoDup_fst_map_to_list.
  - intros r. rewrite completion_perm, list_elem_of_fmap. split.
    + intros ([r' l] & -> & Hin%elem_of_map_to_list). eauto.
    + intros [l Hl]. exists (r, l). split; [done|]. by apply elem_of_map_to_list.
Qed.

Lemma entries_spec (refs : gmap string (list NodePtr)) e :
  e ∈ iteration (map_to_list refs) ↔ refs !! e.1 = Some e.2.
Proof. rewrite iteration_perm. destruct e. apply elem_of_map_to_list. Qed.

(** When no goroutine fails, the third loop finds a digest for every
    key and assigns it through every pointer of the index. *)
Lemma ImageReferences_success docs strict refs :
  collect builder strict ∅ (pointers docs) = inr refs →
  first_err (build_all builder publisher completion refs) = None →
  (∀ r, is_Some (refs !! r) →
        ∃ d, outcome r = inr d ∧
             sm (build_all builder publisher completion refs) !! r = Some d) ∧
  ImageReferences builder publisher completion iteration docs strict =
    mkResult
      (apply_writes docs
         (writes (sm (build_all builder publisher completion refs))
            (iteration (map_to_list refs))))
      (calls (build_all builder publisher completion refs)) None.
Proof.
  intros Hc Herr.
  assert (∀ r, is_Some (refs !! r) →
            ∃ d, outcome r = inr d ∧
                 sm (build_all builder publisher completion refs) !! r = Some d) as Hsm.
  { intros r Hr%keys_spec. unfold build_all in *.
    destruct (foldl_run (completion (map_to_list refs).*1) (mkGroup ∅ None []))
      as (_ & He & Hs).
    rewrite He in Herr. simpl in Herr.
    pose proof (head_omap_None _ _ _ Herr Hr) as Hf. unfold failure in Hf.
    destruct (outcome r) as [e|d] eqn:Ho; [done|]. exists d. split; [done|].
    rewrite Hs, Ho. by rewrite decide_True. }
  split; [done|].
  unfold ImageReferences. rewrite Hc. cbv zeta. rewrite Herr.
  rewrite rewrite_all_ok; [done|].
  intros e He%entries_spec. destruct (Hsm e.1) as (d & _ & ->); eauto.
Qed.

(** When a goroutine fails, the batch is left as it was. *)
Lemma ImageReferences_failure docs strict refs e :
  collect builder strict ∅ (pointers docs) = inr refs →
  first_err (build_all builder publisher completion refs) = Some e →
  ImageReferences builder publisher completion iteration docs strict =
    mkResult docs (calls (build_all builder publisher completion refs)) (Some e).
Proof. intros Hc Herr. unfold ImageReferences. by rewrite Hc, Herr. Qed.

Lemma calls_spec docs strict :
  calls_made (ImageReferences builder publisher completion iteration docs strict) =
  match collect builder strict ∅ (pointers docs) with
  | inl _ => []
  | inr refs => flat_map task_calls (completion (map_to_list refs).*1)
  end.
Proof.
  unfold ImageReferences.
  destruct (collect builder strict ∅ (pointers docs)) as [e|refs]; [done|].
  cbv zeta.
  assert (calls (build_all builder publisher completion refs) =
          flat_map task_calls (completion (map_to_list refs).*1)) as Hcalls.
  { unfold build_all.
    by destruct (foldl_run (completion (map_to_list refs).*1) (mkGroup ∅ None []))
      as (-> & _ & _). }
  destruct (first_err _); [done|].
  destruct (rewrite_all _ _ _). done.
Qed.

(** A value read through a pointer of the walk after ImageReferences:
    the digest of its reference when the node was collected and the
    batch succeeded, and what it held before in every other case. *)
Lemma Value_after docs strict q :
  q ∈ walked strict docs →
  Value_at (addr q)
    (docs_after (ImageReferences builder publisher completion iteration docs strict)) =
  match err (ImageReferences builder publisher completion iteration docs strict),
        supported q, outcome (bare q) with
  | None, true, inr d => Some d
  | _, _, _ => Some (Value (deref q))
  end.
Proof.
  intros Hq. pose proof (walked_valid _ _ _ Hq) as Hv.
  assert (Value_at (addr q) docs = Some (Value (deref q))) as Hold.
  { unfold Value_at. by rewrite Hv. }
  destruct (collect builder strict ∅ (pointers docs)) as [e|refs] eqn:Hc.
  { unfold ImageReferences. rewrite Hc. done. }
  destruct (first_err (build_all builder publisher completion refs)) as [e|] eqn:He.
  { rewrite (ImageReferences_failure _ _ _ _ Hc He). done. }
  destruct (ImageReferences_success _ _ _ Hc He) as (Hsm & ->). simpl.
  apply collect_index in Hc as (Hget & Hidx & Hsome).
  assert (∀ w, w ∈ writes (sm (build_all builder publisher completion refs))
                     (iteration (map_to_list refs)) →
               w.1 = addr q →
               supported q = true ∧
               ∃ d, outcome (bare q) = inr d ∧ w.2 = d) as Hw.
  { intros w (e & q' & He'%entries_spec & Hq' & ->)%elem_of_writes Ha. simpl in *.
    destruct (Hidx _ _ He') as [Hl _]. rewrite Hl in Hq'.
    apply list_elem_of_filter in Hq' as [[Hb Hs] Hq'w].
    pose proof (walked_valid _ _ _ Hq'w) as Hv'. unfold valid in *.
    rewrite Ha, Hv in Hv'. injection Hv' as Hd.
    assert (bare q = e.1) as Hbq by (unfold bare in *; by rewrite Hd).
    split; [unfold supported in *; by rewrite Hbq, <- Hb|].
    destruct (Hsm e.1) as (d & Ho & Hd'); [eauto|].
    exists d. rewrite Hbq, Hd'. done. }
  destruct (supported q) eqn:Hs.
  - assert (is_Some (refs !! bare q)) as Hin.
    { apply Hsome. intros Hnil.
      assert (q ∈ filter (collected (bare q)) (walked strict docs)) as Hqf
        by (apply list_elem_of_filter; by split).
      rewrite Hnil in Hqf. by apply elem_of_nil in Hqf. }
    destruct (Hsm _ Hin) as (d & Ho & Hd). rewrite Ho.
    apply apply_writes_value; [| |by rewrite Hv].
    + intros w Hin' Ha. destruct (Hw w Hin' Ha) as (_ & d' & Ho' & ->). congruence.
    + destruct Hin as [l Hl]. destruct (Hidx _ _ Hl) as [Hlf _].
      exists (addr q, d). split; [|done]. apply elem_of_writes.
      exists (bare q, l), q. simpl. rewrite Hd. split_and!; [by apply entries_spec| |done].
      rewrite Hlf. apply list_elem_of_filter. by split.
  - rewrite apply_writes_other; [done|].
    intros w Hin Ha. destruct (Hw w Hin Ha) as [? _]. done.
Qed.

Lemma head_omap_Some {A B} (f : A → option B) (l : list A) y :
  head (omap f l) = Some y →
  ∃ l1 x l2, l = l1 ++ x :: l2 ∧ f x = Some y ∧ ∀ z, z ∈ l1 → f z = None.
Proof.
  induction l as [|x l IH]; [done|]. simpl.
  destruct (f x) as [y'|] eqn:Hx.
  - intros [= ->]. exists [], x, l. split_and!; [done..|]. by intros z ?%elem_of_nil.
  - intros (l1 & x' & l2 & -> & Hx' & Hl1)%IH. exists (x :: l1), x', l2.
    split_and!; [done..|]. intros z [->|?]%elem_of_cons; auto.
Qed.

Lemma CallBuild_task_calls ks r :
  CallBuild r ∈ flat_map task_calls ks ↔ r ∈ ks.
Proof.
  rewrite list_elem_of_In, in_flat_map. split.
  - intros (k & Hk%list_elem_of_In & Hr%list_elem_of_In).
    unfold task_calls in Hr. destruct (build.Build builder k); set_solver.
  - intros Hr. exists r. split; [by apply list_elem_of_In|].
    apply list_elem_of_In. unfold task_calls.
    destruct (build.Build builder r); set_solver.
Qed.

(** C1, as amended.  For a supported bare reference that N >= 1 nodes of
    the walk carry: Build and Publish are each called at most once for
    it, whatever the order in which the goroutines run and the map is
    ranged over; Build is called exactly once unless the first loop ends
    the batch on a strict violation, and then no call is made at all,
    for this reference or any other; and when ImageReferences returns
    nil, the value of every one of the N nodes is the one digest that
    Build-then-Publish of the reference gave. *)
Theorem references_deduplicated docs strict r :
  build.IsSupportedReference builder r = true →
  matched strict docs r ≠ [] →
  length (filter (λ c, c = CallBuild r)
            (calls_made (ImageReferences builder publisher completion iteration docs strict))) ≤ 1 ∧
  length (filter (λ c, c = CallPublish r)
            (calls_made (ImageReferences builder publisher completion iteration docs strict))) ≤ 1 ∧
  ((strict = true → ∀ q, q ∈ walked strict docs → supported q = true) →
   filter (λ c, c = CallBuild r)
     (calls_made (ImageReferences builder publisher completion iteration docs strict)) =
   [CallBuild r]) ∧
  (strict = true → (∃ q, q ∈ walked strict docs ∧ supported q = false) →
   calls_made (ImageReferences builder publisher completion iteration docs strict) = []) ∧
  (err (ImageReferences builder publisher completion iteration docs strict) = None →
   ∃ d, outcome r = inr d ∧
        ∀ q, q ∈ matched strict docs r →
             Value_at (addr q)
               (docs_after (ImageReferences builder publisher completion iteration docs strict)) =
             Some d).
Proof.
  intros Hr Hm.
  assert (∀ q, q ∈ matched strict docs r → q ∈ walked strict docs ∧ collected r q) as Hmc.
  { intros q [Hb Hq]%list_elem_of_filter. split; [done|]. split; [done|].
    unfold supported. by rewrite Hb. }
  rewrite calls_spec.
  destruct (collect builder strict ∅ (pointers docs)) as [e|refs] eqn:Hc.
  { split_and!; [simpl; lia..| |done|].
    - intros Hsup. destruct (proj1 (collect_fails strict docs)) as (Hst & q & Hq & Hs); [eauto|].
      rewrite (Hsup Hst q Hq) in Hs. done.
    - unfold ImageReferences. rewrite Hc. done. }
  destruct (keys_spec refs) as [Hnd Hks].
  pose proof Hc as (Hget & Hidx & Hsome)%collect_index.
  assert (is_Some (refs !! r)) as Hin.
  { apply Hsome. destruct (matched strict docs r) as [|q l] eqn:Hq; [done|].
    destruct (Hmc q) as [Hw Hcq]; [by left|]. intros Hnil.
    assert (q ∈ filter (collected r) (walked strict docs)) as Hqf
      by (by apply list_elem_of_filter).
    rewrite Hnil in Hqf. by apply elem_of_nil in Hqf. }
  rewrite (filter_build _ r Hnd). split_and!.
  - case_decide; simpl; lia.
  - by apply filter_publish.
  - intros _. rewrite decide_True; [done|]. by apply Hks.
  - intros Hst (q & Hq & Hs). apply collect_inr in Hc as (_ & _ & Hsup).
    rewrite (Hsup Hst q Hq) in Hs. done.
  - intros Herr.
    destruct (first_err (build_all builder publisher completion refs)) as [e|] eqn:He.
    { rewrite (ImageReferences_failure _ _ _ _ Hc He) in Herr. done. }
    destruct (ImageReferences_success _ _ _ Hc He) as (Hsm & _).
    destruct (Hsm r Hin) as (d & Ho & _). exists d. split; [done|].
    intros q Hq. destruct (Hmc q Hq) as [Hw [Hb Hs]].
    rewrite (Value_after _ _ _ Hw), Herr, Hs, Hb, Ho. done.
Qed.

(** C5.  If a Build or Publish call of the batch returns an error, the
    batch is left as it was and the error returned is the one of the
    first goroutine that failed: every call made before its calls
    belongs to a reference whose Build and Publish succeeded. *)
Theorem failed_call_discards_batch docs strict r e :
  CallBuild r ∈
    calls_made (ImageReferences builder publisher completion iteration docs strict) →
  outcome r = inl e →
  docs_after (ImageReferences builder publisher completion iteration docs strict) = docs ∧
  ∃ r0 e0 before after,
    err (ImageReferences builder publisher completion iteration docs strict) = Some e0 ∧
    outcome r0 = inl e0 ∧
    calls_made (ImageReferences builder publisher completion iteration docs strict) =
      before ++ task_calls r0 ++ after ∧
    ∀ r', CallBuild r' ∈ before → ∃ d, outcome r' = inr d.
Proof.
  rewrite calls_spec.
  destruct (collect builder strict ∅ (pointers docs)) as [e'|refs] eqn:Hc.
  { by intros ?%elem_of_nil. }
  intros Hr%CallBuild_task_calls Ho.
  destruct (foldl_run (completion (map_to_list refs).*1) (mkGroup ∅ None []))
    as (_ & He & _). fold (build_all builder publisher completion refs) in He.
  simpl in He.
  destruct (head (omap failure (completion (map_to_list refs).*1))) as [e0|] eqn:Hh.
  2: { pose proof (head_omap_None _ _ _ Hh Hr) as Hf. unfold failure in Hf.
       by rewrite Ho in Hf. }
  simpl in He. rewrite (ImageReferences_failure _ _ _ _ Hc He). simpl.
  split; [done|].
  apply head_omap_Some in Hh as (l1 & r0 & l2 & Hl & Hf & Hl1).
  exists r0, e0, (flat_map task_calls l1), (flat_map task_calls l2). split_and!.
  - done.
  - unfold failure in Hf. destruct (outcome r0); congruence.
  - rewrite Hl, flat_map_app. done.
  - intros r' Hr'%CallBuild_task_calls. specialize (Hl1 r' Hr'). unfold failure in Hl1.
    destruct (outcome r'); [done|eauto].
Qed.

(** C9.  In non-strict mode a walked string whose bare reference the
    builder does not support is in no list of the reference index, no
    Build is asked for it, and its value is what it was, whatever
    becomes of the batch; and a batch with only such strings comes back
    as it was, with no call made and no error. *)
Theorem unsupported_string_untouched docs :
  (∀ q, q ∈ walked false docs → supported q = false →
     (∀ refs r l, collect builder false ∅ (pointers docs) = inr refs →
                  refs !! r = Some l → q ∉ l) ∧
     (CallBuild (bare q) ∉
        calls_made (ImageReferences builder publisher completion iteration docs false)) ∧
     Value_at (addr q)
       (docs_after (ImageReferences builder publisher completion iteration docs false)) =
     Some (Value (deref q))) ∧
  ((∀ q, q ∈ walked false docs → supported q = false) →
   ImageReferences builder publisher completion iteration docs false =
   mkResult docs [] None).
Proof.
  split.
  - intros q Hq Hs. split_and!.
    + intros refs r l (_ & Hidx & _)%collect_index Hl.
      destruct (Hidx _ _ Hl) as [-> _].
      intros [[_ Hs'] _]%list_elem_of_filter. congruence.
    + rewrite calls_spec.
      destruct (collect builder false ∅ (pointers docs)) as [e|refs] eqn:Hc.
      { apply not_elem_of_nil. }
      intros Hin%CallBuild_task_calls%keys_spec.
      apply collect_index in Hc as (Hget & Hidx & _).
      destruct Hin as [l Hl]. destruct (Hidx _ _ Hl) as [-> Hne].
      destruct (filter (collected (bare q)) (walked false docs)) as [|q' l'] eqn:Hf; [done|].
      assert (q' ∈ filter (collected (bare q)) (walked false docs)) as Hq'
        by (rewrite Hf; by left).
      apply list_elem_of_filter in Hq' as [[Hb Hs'] _].
      unfold supported in *. rewrite Hb in Hs'. congruence.
    + rewrite (Value_after _ _ _ Hq), Hs. by destruct (err _).
  - intros Hall.
    destruct (collect builder false ∅ (pointers docs)) as [e|refs] eqn:Hc.
    { destruct (proj1 (collect_fails false docs)) as [? _]; [eauto|done]. }
    pose proof Hc as (Hget & Hidx & _)%collect_index.
    assert (refs = ∅) as ->.
    { apply map_eq. intros r. rewrite lookup_empty.
      destruct (refs !! r) as [l|] eqn:Hl; [|done].
      destruct (Hidx _ _ Hl) as [-> Hne]. destruct Hne.
      destruct (filter (collected r) (walked false docs)) as [|q l'] eqn:Hf; [done|].
      assert (q ∈ filter (collected r) (walked false docs)) as Hq
        by (rewrite Hf; by left).
      apply list_elem_of_filter in Hq as [[_ Hs] Hq].
      rewrite (Hall q Hq) in Hs. done. }
    unfold ImageReferences. rewrite Hc. unfold build_all.
    rewrite map_to_list_empty. simpl.
    assert (completion [] = []) as -> by apply Permutation_nil_r, completion_perm.
    simpl.
    assert (iteration [] = []) as -> by apply Permutation_nil_r, iteration_perm.
    done.
Qed.

End facts.

End references.

(** * resolveFilesToWriter *)

Module orchestrator.
Import commands.

Section facts.
Variable Watch : bool.
Variable resolved : nat → string → file_error + (bytes * list string).

(** How many futures have been taken off the head of the list. *)
Definition dequeued (s : state) : nat := spawned s - length (futures s).

(** A future is in step with what its goroutine got from resolveFile. *)
Definition fut_ok (sl : slot) : Prop :=
  match fut sl with
  | Pending => True
  | Offered b => ∃ ips, resolved (id sl) (file sl) = inr (b, ips)
  | Closed => Watch = true ∧ ∃ e, resolved (id sl) (file sl) = inl e
  end.

(** The invariant of the loop, for the file names [arr] received so far:
    the futures stand for the last names received, in the same order,
    and the output is what the names before them contribute. *)
Record Inv (arr : list string) (s : state) : Prop := {
  inv_spawned : spawned s = length arr;
  inv_length : length (futures s) ≤ spawned s;
  inv_futures : ∀ k sl, futures s !! k = Some sl →
      id sl = dequeued s + k ∧ arr !! (dequeued s + k) = Some (file sl) ∧ fut_ok sl;
  inv_out : out s = emitted resolved (take (dequeued s) arr);
  inv_returned : st s = Returned → futures s = [] }.

Lemma emitted_snoc l f :
  emitted resolved (l ++ [f]) = emitted resolved l ++ emit resolved (length l) f.
Proof.
  unfold emitted. rewrite imap_app, concat_app. simpl.
  by rewrite Nat.add_0_r, app_nil_r.
Qed.

Lemma exec_snoc evs e s :
  exec Watch resolved (evs ++ [e]) s = exec Watch resolved evs s ≫= step Watch resolved e.
Proof. unfold exec. by rewrite foldl_app. Qed.

Lemma received_snoc evs e :
  received (evs ++ [e]) =
  received evs ++ match e with RecvFile f => [f] | _ => [] end.
Proof. unfold received. rewrite omap_app. by destruct e. Qed.

Lemma Inv_init : Inv [] init.
Proof. split; simpl; try done. Qed.

Lemma set_fut_lookup k v l j sl :
  set_fut k v l !! j = Some sl →
  ∃ sl0, l !! j = Some sl0 ∧ id sl = id sl0 ∧ file sl = file sl0 ∧
         (fut sl = fut sl0 ∨ (j = k ∧ fut sl = v)).
Proof.
  unfold set_fut. destruct (l !! k) as [sk|] eqn:Hk; [|by eauto 10].
  destruct (decide (k = j)) as [->|Hne].
  - rewrite list_lookup_insert_eq by by eapply lookup_lt_Some.
    intros [= <-]. exists sk. simpl. eauto 10.
  - rewrite list_lookup_insert_ne by done. eauto 10.
Qed.

Lemma set_fut_length k v l : length (set_fut k v l) = length l.
Proof. unfold set_fut. destruct (l !! k); [apply length_insert|done]. Qed.

(** Every step keeps the invariant. *)
Lemma step_Inv arr s e s' :
  Inv arr s → step Watch resolved e s = Some s' →
  Inv (arr ++ match e with RecvFile f => [f] | _ => [] end) s'.
Proof.
  intros [Hsp Hlen Hfut Hout Hret] Hstep.
  destruct s as [fo futs sp o lg m ad stt]. unfold dequeued in *. simpl in *.
  destruct stt; [|done..]. clear Hret.
  destruct e as [f| | |e| |k|ok]; simpl in Hstep.
  - (* RecvFile *)
    destruct fo; [|done]. injection Hstep as <-.
    split; unfold dequeued; simpl; rewrite ?length_app; simpl; try done.
    + lia.
    + lia.
    + intros k sl Hk.
      replace (S sp - (length futs + 1)) with (sp - length futs) by lia.
      destruct (decide (k < length futs)) as [Hlt|Hge].
      * rewrite lookup_app_l in Hk by done.
        destruct (Hfut k sl Hk) as (? & ? & ?). split_and!; [done| |done].
        rewrite lookup_app_l; [done|]. by eapply lookup_lt_Some.
      * rewrite lookup_app_r in Hk by lia.
        destruct (k - length futs) as [|n] eqn:Hn; [|done].
        injection Hk as <-. simpl.
        assert (sp - length futs + k = length arr) as -> by lia.
        split_and!; [lia| |done].
        rewrite lookup_app_r by lia. by rewrite Nat.sub_diag.
    + replace (S sp - (length futs + 1)) with (sp - length futs) by lia.
      rewrite take_app_le by lia. done.
  - (* RecvClosed *)
    destruct fo; [|done]. injection Hstep as <-. rewrite app_nil_r.
    split; unfold dequeued; simpl; done.
  - (* RecvHead *)
    destruct futs as [|bf rest]; [done|]. simpl in *. rewrite app_nil_r.
    destruct (Hfut 0 bf eq_refl) as (Hid & Harr & Hok).
    rewrite Nat.add_0_r in *.
    assert (∀ o', o' = o ++ emit resolved (sp - S (length rest)) (file bf) →
              Inv arr (mkSt fo rest sp o' lg m
                         (match fut bf with
                          | Offered _ => if Watch then S ad else ad
                          | _ => ad
                          end) Looping)) as Hinv.
    { intros o' ->. split; unfold dequeued; simpl; try done.
      - lia.
      - intros k sl Hk. destruct (Hfut (S k) sl Hk) as (? & ? & ?).
        replace (sp - length rest + k) with (sp - S (length rest) + S k) by lia.
        done.
      - replace (sp - length rest) with (S (sp - S (length rest))) by lia.
        rewrite (take_S_r _ _ _ Harr), emitted_snoc, Hout.
        rewrite length_take_le; [done|]. apply lookup_lt_Some in Harr. lia. }
    unfold fut_ok, emit in *. rewrite <- Hid in *.
    destruct (fut bf) as [|b|]; [done| |].
    + injection Hstep as <-. destruct Hok as [ips Hr]. rewrite Hr in Hinv.
      by apply Hinv.
    + injection Hstep as <-. destruct Hok as [_ [e Hr]]. rewrite Hr in Hinv.
      apply Hinv. by rewrite app_nil_r.
  - (* RecvErr *)
    destruct Watch; [|done]. injection Hstep as <-. rewrite app_nil_r.
    split; unfold dequeued; simpl; done.
  - (* Break *)
    destruct futs; [|done]. destruct fo; [done|]. injection Hstep as <-.
    rewrite app_nil_r. split; unfold dequeued; simpl; done.
  - (* Done *)
    rewrite app_nil_r.
    destruct (futs !! k) as [[n f fu]|] eqn:Hk; [|done].
    destruct fu; [|done..].
    destruct (Hfut k _ Hk) as (Hid & Harr & _). simpl in *.
    destruct (resolved n f) as [err|[b ips]] eqn:Hr.
    + destruct Watch eqn:HW; injection Hstep as <-.
      * split; unfold dequeued; simpl; rewrite ?set_fut_length; try done.
        intros j sl (sl0 & Hj & Hi & Hf & Hfu)%set_fut_lookup.
        destruct (Hfut j sl0 Hj) as (? & ? & Hok).
        rewrite Hi, Hf. split_and!; [done..|].
        unfold fut_ok in *. rewrite Hi, Hf.
        destruct Hfu as [->|[-> ->]]; [done|].
        rewrite Hk in Hj. injection Hj as <-. simpl. eauto.
      * split; unfold dequeued; simpl; done.
    + injection Hstep as <-.
      split; unfold dequeued; simpl; rewrite ?set_fut_length; try done.
      intros j sl (sl0 & Hj & Hi & Hf & Hfu)%set_fut_lookup.
      destruct (Hfut j sl0 Hj) as (? & ? & Hok).
      rewrite Hi, Hf. split_and!; [done..|].
      unfold fut_ok in *. rewrite Hi, Hf.
      destruct Hfu as [->|[-> ->]]; [done|].
      rewrite Hk in Hj. injection Hj as <-. simpl. eauto.
  - (* Added *)
    destruct ad; [done|]. injection Hstep as <-. rewrite app_nil_r.
    split; unfold dequeued; simpl; try done. by destruct ok.
Qed.

Lemma exec_Inv evs s :
  exec Watch resolved evs init = Some s → Inv (received evs) s.
Proof.
  revert s. induction evs as [|e evs IH] using rev_ind; intros s.
  - intros [= <-]. apply Inv_init.
  - rewrite exec_snoc, received_snoc.
    destruct (exec Watch resolved evs init) as [s0|]; [|done]. simpl.
    intros Hstep. eapply step_Inv; eauto.
Qed.

Lemma Inv_files arr s :
  Inv arr s → file <$> futures s = drop (dequeued s) arr.
Proof.
  intros [Hsp Hlen Hfut _ _]. apply list_eq. intros k.
  rewrite list_lookup_fmap, lookup_drop.
  destruct (futures s !! k) as [sl|] eqn:Hk; simpl.
  - by destruct (Hfut k sl Hk) as (_ & -> & _).
  - symmetry. apply lookup_ge_None. apply lookup_ge_None in Hk.
    unfold dequeued. lia.
Qed.

(** C3.  Whatever the schedule (the order in which file names arrive,
    resolutions end and the select picks its cases), the bytes written
    are those of the files whose futures were taken off the list, in the
    order the names arrived, each followed by the delimiter; the futures
    still listed stand for the names that arrived after them, in order;
    and when the loop has returned, every name received is accounted
    for. *)
Theorem output_in_arrival_order evs s :
  exec Watch resolved evs init = Some s →
  out s = emitted resolved (take (dequeued s) (received evs)) ∧
  file <$> futures s = drop (dequeued s) (received evs) ∧
  (st s = Returned → out s = emitted resolved (received evs)).
Proof.
  intros Hinv%exec_Inv. split_and!.
  - apply Hinv.
  - by apply Inv_files.
  - intros Hr. rewrite (inv_out _ _ Hinv). f_equal. apply take_ge.
    unfold dequeued. rewrite (inv_returned _ _ Hinv Hr), <- (inv_spawned _ _ Hinv).
    simpl. lia.
Qed.

(** C8.  When resolveFile returns an error in the goroutine of a
    future, the error is logged; without watch the run is over (a fatal
    exit: no step follows), with watch the loop goes on: only that
    future changes (it is closed), the other futures and the output are
    as before, and file names are received as before. *)
Theorem resolver_error_policy s k sl e :
  st s = Looping → futures s !! k = Some sl → fut sl = Pending →
  resolved (id sl) (file sl) = inl e →
  ∃ s', step Watch resolved (Done k) s = Some s' ∧
    logged s' = logged s ++ [(file sl, e)] ∧ out s' = out s ∧
    (Watch = false → st s' = Fatal ∧ ∀ ev, step Watch resolved ev s' = None) ∧
    (Watch = true →
       st s' = Looping ∧ fs_open s' = fs_open s ∧
       futures s' = <[k := mkSlot (id sl) (file sl) Closed]> (futures s) ∧
       (∀ f, fs_open s = true → is_Some (step Watch resolved (RecvFile f) s'))).
Proof.
  destruct s as [fo futs sp o lg m ad stt]. destruct sl as [n f fu]. simpl.
  intros -> Hk -> Hr. rewrite Hk, Hr.
  destruct Watch; eexists; (split; [reflexivity|]);
    cbn [logged out st fs_open futures]; (split; [done|]); (split; [done|]);
    (split; [intros HW|intros HW]); try done.
  split_and!; [done..| |].
  - unfold set_fut. by rewrite Hk.
  - intros f' ->. by eexists.
Qed.

(** C10.  In watch mode a file whose resolution failed contributes
    nothing to the output, neither bytes nor delimiter: once its future
    is off the list, the output is what the files before it contribute
    followed by what the files after it contribute, in the order they
    arrived.  Its future, closed with no value, is taken off the head of
    the list without a write. *)
Theorem failed_file_writes_nothing evs s i f e :
  Watch = true → exec Watch resolved evs init = Some s →
  received evs !! i = Some f → resolved i f = inl e →
  (i < dequeued s →
   out s = emitted resolved (take i (received evs)) ++
           concat (imap (λ j, emit resolved (S i + j))
                     (drop (S i) (take (dequeued s) (received evs))))) ∧
  (∀ bf rest, futures s = bf :: rest → fut bf = Closed → st s = Looping →
     ∃ s', step Watch resolved RecvHead s = Some s' ∧
           out s' = out s ∧ futures s' = rest ∧ st s' = Looping).
Proof.
  intros HW Hinv%exec_Inv Hi Hr. split.
  - intros Hlt. rewrite (inv_out _ _ Hinv).
    assert (take (dequeued s) (received evs) !! i = Some f) as Hti
      by (rewrite lookup_take_lt; done).
    rewrite <- (take_drop_middle _ _ _ Hti) at 1.
    rewrite take_take, Nat.min_l by lia.
    unfold emitted. rewrite imap_app, concat_app. f_equal. simpl.
    assert (length (take i (received evs)) = i) as ->.
    { rewrite length_take. apply lookup_lt_Some in Hi. lia. }
    rewrite Nat.add_0_r. unfold emit at 1. rewrite Hr. simpl.
    f_equal. apply imap_ext. intros j x _. simpl. f_equal. lia.
  - intros bf rest Hf Hc Hs. destruct s as [fo futs sp o lg m ad stt].
    simpl in *. subst. rewrite Hc. eauto.
Qed.

End facts.

End orchestrator.

(** * resolveFile and the selector *)

Module files.
Import yaml commands.

Section facts.
Context {Image Selector : Type}.
Variable labels_Parse : string → string + Selector.
Variable ReadStdin : string + bytes.
Variable ReadFile : string → string + bytes.
Variable Decode : bytes → list Node * option string.
Variable MatchesSelector : Node → Selector → string + bool.
Variable Marshal : Node → string + bytes.
Variable completion : list string → list string.
Variable iteration :
  list (string * list yit.NodePtr) → list (string * list yit.NodePtr).

(** The documents of a stream the selector lets through. *)
Definition matching (sel : Selector) (stream : list Node) : list Node :=
  filter (λ doc, MatchesSelector doc sel = inr true) stream.

(** The decoder that never shows the documents the selector rejects. *)
Definition Decode_matching (sel : Selector) (b : bytes) : list Node * option string :=
  (matching sel (Decode b).1, (Decode b).2).

(** The error of the first document on which evaluating the selector
    fails, when there is one. *)
Definition selector_error (sel : Selector) (stream : list Node) : option string :=
  head (omap (λ doc, match MatchesSelector doc sel with
                     | inl e => Some e
                     | inr _ => None
                     end) stream).

(** The same for the documents of the file [f], when it can be read. *)
Definition evaluation_error (sel : Selector) (f : string) : option string :=
  match (if decide (f = "-") then ReadStdin else ReadFile f) with
  | inl _ => None
  | inr b => selector_error sel (Decode b).1
  end.

Lemma decode_loop_matching sel acc stream stop :
  decode_loop MatchesSelector (Some sel) acc stream stop =
  match selector_error sel stream with
  | Some e => inl (ErrorEvaluatingSelector e)
  | None => decode_loop MatchesSelector None acc (matching sel stream) stop
  end.
Proof.
  revert acc. induction stream as [|doc rest IH]; intros acc; [done|].
  unfold matching, selector_error. rewrite filter_cons. simpl.
  fold (matching sel rest). fold (selector_error sel rest).
  destruct (MatchesSelector doc sel) as [e|[]] eqn:Hm; simpl.
  - done.
  - exact (IH _).
  - exact (IH _).
Qed.

(** C2, as amended.  With a selector, resolveFile does exactly what it
    does without one on the stream from which the documents the selector
    rejects were removed: such a document is neither walked for
    references nor written to the output.  The one exception is a file
    with a document on which evaluating the selector fails: resolveFile
    then returns the error of the first such document, with no call
    made. *)
Theorem nonmatching_documents_dropped f builder pub selector sel strict :
  selector ≠ "" → labels_Parse selector = inr sel →
  @resolveFile Image Selector labels_Parse ReadStdin ReadFile Decode MatchesSelector
    Marshal completion iteration f builder pub selector strict =
  match evaluation_error sel f with
  | Some e => (inl (ErrorEvaluatingSelector e), [])
  | None =>
      @resolveFile Image Selector labels_Parse ReadStdin ReadFile (Decode_matching sel)
        MatchesSelector Marshal completion iteration f builder pub "" strict
  end.
Proof.
  intros Hne Hparse. unfold resolveFile, evaluation_error.
  rewrite (decide_False (P := selector = "")) by done. rewrite Hparse.
  rewrite (decide_True (P := "" = "")) by done.
  destruct (if decide (f = "-") then ReadStdin else ReadFile f) as [e|b]; [done|].
  unfold Decode_matching.
  destruct (Decode b) as [stream stop]. simpl.
  rewrite decode_loop_matching. by destruct (selector_error sel stream).
Qed.

End facts.

End files.

(** * Concrete runs *)

Module examples.
Import yaml yit resolve commands walker references orchestrator files.

Definition scalar (v : string) : Node := mkNode ScalarNode "!!str" v [].
Definition mapping (c : list Node) : Node := mkNode MappingNode "!!map" "" c.
Definition document (root : Node) : Node := mkNode DocumentNode "" "" [root].

(** [image: ko://a] *)
Definition pod : Node := document (mapping [scalar "image"; scalar "ko://a"]).
(** [image: ko://a] and [sidecar: ko://b] *)
Definition two_refs : Node :=
  document (mapping [scalar "image"; scalar "ko://a"; scalar "sidecar"; scalar "ko://b"]).
(** [image: " ko://a"], the value quoted with a leading space *)
Definition spaced : Node := document (mapping [scalar "image"; scalar " ko://a"]).
(** [name: not-a-ref] *)
Definition plain : Node := document (mapping [scalar "name"; scalar "not-a-ref"]).

(** A builder that supports the one import path [a]. *)
Definition builder_a : build.Interface string :=
  build.Build_Interface string (λ r, bool_decide (r = "a")) (λ r, inr ("image of " +:+ r)).
(** The same, with a build that fails. *)
Definition builder_broken : build.Interface string :=
  build.Build_Interface string (λ r, bool_decide (r = "a"))
    (λ r, inl (ErrExternal "build failed")).
Definition publisher_ok : publish.Interface string :=
  publish.Build_Interface string (λ img r, inr ("registry/" +:+ r +:+ "@sha256:0")).

Definition in_order {A} (l : list A) : list A := l.

Lemma in_order_perm {A} (l : list A) : in_order l ≡ₚ l.
Proof. reflexivity. Defined.

(** C1: the claim as stated fails on a strict batch in which a supported
    reference stands beside an unsupported one: [a] is supported and
    carried by one walked node, and Build is never called. *)
Lemma build_not_called_on_strict_violation :
  build.IsSupportedReference builder_a "a" = true ∧
  matched true [two_refs] "a" = [mkPtr [0; 0; 1] (scalar "ko://a")] ∧
  ImageReferences builder_a publisher_ok in_order in_order [two_refs] true =
    mkResult [two_refs] [] (Some (ErrStrict "ko://b")).
Proof. vm_compute. done. Qed.

(** Two documents with the same reference: one Build, and both nodes get
    the digest. *)
Lemma references_deduplicated_witness :
  build.IsSupportedReference builder_a "a" = true ∧
  length (matched true [pod; pod] "a") = 2 ∧
  filter (λ c, c = CallBuild "a")
    (calls_made (ImageReferences builder_a publisher_ok in_order in_order
                   [pod; pod] true)) = [CallBuild "a"] ∧
  ∀ q, q ∈ matched true [pod; pod] "a" →
       Value_at (addr q)
         (docs_after (ImageReferences builder_a publisher_ok in_order in_order
                        [pod; pod] true)) = Some "registry/a@sha256:0".
Proof.
  assert (build.IsSupportedReference builder_a "a" = true) as H1 by reflexivity.
  assert (matched true [pod; pod] "a" ≠ []) as H2 by (vm_compute; discriminate).
  destruct (references_deduplicated builder_a publisher_ok in_order in_order
              in_order_perm in_order_perm [pod; pod] true "a" H1 H2)
    as (_ & _ & Hb & _ & Hv).
  split; [exact H1|]. split; [reflexivity|]. split.
  - apply Hb. intros _ q Hq. vm_compute in Hq.
    repeat (apply elem_of_cons in Hq as [->|Hq]; [reflexivity|]).
    by apply elem_of_nil in Hq.
  - destruct (Hv eq_refl) as (d & Hd & Hq). vm_compute in Hd.
    injection Hd as <-. exact Hq.
Defined.

(** [image: ko://b] and [sidecar: ko://c], neither supported by
    [builder_a]. *)
Definition two_bad : Node :=
  document (mapping [scalar "image"; scalar "ko://b"; scalar "sidecar"; scalar "ko://c"]).

(** C4: the claim as stated fails for the second of two unsupported
    references: the walk visits [ko://c], which [builder_a] does not
    support, and the text of the error does not hold it. *)
Lemma strict_error_names_first_violation_only :
  walked true [two_bad] =
    [mkPtr [0; 0; 1] (scalar "ko://b"); mkPtr [0; 0; 3] (scalar "ko://c")] ∧
  supported builder_a (mkPtr [0; 0; 3] (scalar "ko://c")) = false ∧
  ImageReferences builder_a publisher_ok in_order in_order [two_bad] true =
    mkResult [two_bad] [] (Some (ErrStrict "ko://b")) ∧
  strings.Contains (ErrStrict_message "ko://b") "ko://c" = false.
Proof. vm_compute. done. Qed.

(** The second node of [two_bad] is in violation; the error is that of
    the first. *)
Lemma strict_violation_fails_batch_witness :
  ∃ before q' after,
    walked true [two_bad] = before ++ q' :: after ∧
    (∀ q0, q0 ∈ before → supported builder_a q0 = true) ∧
    supported builder_a q' = false ∧
    ImageReferences builder_a publisher_ok in_order in_order [two_bad] true =
      mkResult [two_bad] [] (Some (ErrStrict (strings.TrimSpace (Value (deref q'))))) ∧
    strings.HasPrefix (strings.TrimSpace (Value (deref q'))) koPrefix = true ∧
    strings.Contains (ErrStrict_message (strings.TrimSpace (Value (deref q'))))
      (strings.TrimSpace (Value (deref q'))) = true.
Proof.
  apply (strict_violation_fails_batch builder_a publisher_ok in_order in_order
           [two_bad] (mkPtr [0; 0; 3] (scalar "ko://c"))).
  - vm_compute. right. left.
  - reflexivity.
Defined.

Lemma failed_call_discards_batch_witness :
  docs_after (ImageReferences builder_broken publisher_ok in_order in_order [pod; pod] false)
    = [pod; pod] ∧
  err (ImageReferences builder_broken publisher_ok in_order in_order [pod; pod] false)
    = Some (ErrExternal "build failed").
Proof.
  destruct (failed_call_discards_batch builder_broken publisher_ok in_order in_order
              in_order_perm in_order_perm [pod; pod] false "a" (ErrExternal "build failed"))
    as (Hd & r0 & e0 & before & after & He & Ho & _).
  - vm_compute. left.
  - reflexivity.
  - split; [exact Hd|]. vm_compute in Ho. injection Ho as <-. exact He.
Defined.

Lemma unsupported_string_untouched_witness :
  Value_at [0; 0; 1]
    (docs_after (ImageReferences builder_a publisher_ok in_order in_order [plain] false)) =
    Some "not-a-ref" ∧
  ImageReferences builder_a publisher_ok in_order in_order [plain] false =
    mkResult [plain] [] None.
Proof.
  destruct (unsupported_string_untouched builder_a publisher_ok in_order in_order
              in_order_perm in_order_perm [plain]) as [H1 H2].
  split.
  - destruct (H1 (mkPtr [0; 0; 1] (scalar "not-a-ref"))) as (_ & _ & Hv).
    + vm_compute. right. left.
    + reflexivity.
    + exact Hv.
  - apply H2. intros q Hq. vm_compute in Hq.
    repeat (apply elem_of_cons in Hq as [->|Hq]; [reflexivity|]).
    by apply elem_of_nil in Hq.
Defined.

(** C6: in strict mode the walker passes over a string scalar whose
    trimmed value begins with ko:// when the value itself does not. *)
Lemma walker_skips_untrimmed_prefix :
  walk true (mkPtr [0] spaced) = [] ∧
  filter (qualifies_trimmed true) (preorder_of (mkPtr [0] spaced)) =
    [mkPtr [0; 0; 1] (scalar " ko://a")].
Proof. vm_compute. done. Qed.

(** C7: one file that records two affected import paths. *)
Theorem resend_before_second_invalidation :
  onAffected {[ "r1"; "r2" ]} [("a.yaml", ["r1"; "r2"])] =
  [Invalidate "r1"; Resend "a.yaml"; Invalidate "r2"; Resend "a.yaml"].
Proof. vm_compute. done. Qed.

(** Collaborators of resolveFile for one file holding the document [pod],
    and a selector that rejects it. *)
Definition parse_any (sel : string) : string + string := inr sel.
Definition no_stdin : string + bytes := inl "stdin is closed".
Definition read_any (f : string) : string + bytes := inr [].
Definition decode_pod (b : bytes) : list Node * option string := ([pod], None).
Definition reject_all (doc : Node) (sel : string) : string + bool := inr false.
Definition marshal_x (doc : Node) : string + bytes := inr [Byte.x78].

(** C2: a document the selector rejects is not in the output, which is
    empty here although the document has an encoding. *)
Lemma rejected_document_not_emitted :
  reject_all pod "app=keep" = inr false ∧
  marshal_x pod = inr [Byte.x78] ∧
  resolveFile parse_any no_stdin read_any decode_pod reject_all marshal_x
    in_order in_order "pod.yaml" builder_a publisher_ok "app=keep" false =
  (inr [], []).
Proof. vm_compute. done. Qed.

Lemma nonmatching_documents_dropped_witness :
  resolveFile parse_any no_stdin read_any decode_pod reject_all marshal_x
    in_order in_order "pod.yaml" builder_a publisher_ok "app=keep" false =
  resolveFile parse_any no_stdin read_any (Decode_matching decode_pod reject_all "app=keep")
    reject_all marshal_x in_order in_order "pod.yaml" builder_a publisher_ok "" false.
Proof.
  exact (nonmatching_documents_dropped parse_any no_stdin read_any decode_pod reject_all
           marshal_x in_order in_order "pod.yaml" builder_a publisher_ok "app=keep"
           "app=keep" false ltac:(discriminate) eq_refl).
Defined.

(** Two files; the second resolves first. *)
Definition resolved_both (n : nat) (f : string) : file_error + (bytes * list string) :=
  inr (if decide (n = 0) then [Byte.x61] else [Byte.x62], []).
Definition second_first : list event :=
  [RecvFile "a.yaml"; RecvFile "b.yaml"; Done 1; Done 0; RecvHead; RecvHead;
   RecvClosed; Break].

Lemma output_in_arrival_order_witness :
  received second_first = ["a.yaml"; "b.yaml"] ∧
  out (default init (exec false resolved_both second_first init)) =
    [Byte.x61] ++ delimiter ++ [Byte.x62] ++ delimiter.
Proof.
  split; [reflexivity|].
  destruct (output_in_arrival_order false resolved_both second_first
              (default init (exec false resolved_both second_first init)))
    as (_ & _ & H).
  - vm_compute. reflexivity.
  - rewrite H; reflexivity.
Defined.

(** One file, whose resolution fails. *)
Definition resolved_none (n : nat) (f : string) : file_error + (bytes * list string) :=
  inl (ReadFailed "no such file").
Definition one_pending : state :=
  mkSt true [mkSlot 0 "a.yaml" Pending] 1 [] [] ∅ 0 Looping.

Lemma resolver_error_policy_witness :
  ∃ s', step true resolved_none (Done 0) one_pending = Some s' ∧
    logged s' = logged one_pending ++ [("a.yaml", ReadFailed "no such file")] ∧
    out s' = out one_pending ∧
    (true = false → st s' = Fatal ∧ ∀ ev, step true resolved_none ev s' = None) ∧
    (true = true →
       st s' = Looping ∧ fs_open s' = fs_open one_pending ∧
       futures s' = <[0 := mkSlot 0 "a.yaml" Closed]> (futures one_pending) ∧
       (∀ f, fs_open one_pending = true →
             is_Some (step true resolved_none (RecvFile f) s'))).
Proof.
  apply (resolver_error_policy true resolved_none one_pending 0
           (mkSlot 0 "a.yaml" Pending) (ReadFailed "no such file"));
    reflexivity.
Defined.

(** Two files in watch mode; the resolution of the first fails. *)
Definition resolved_second (n : nat) (f : string) : file_error + (bytes * list string) :=
  if decide (n = 0) then inl (ReadFailed "no such file") else inr ([Byte.x62], []).
Definition first_fails : list event :=
  [RecvFile "a.yaml"; RecvFile "b.yaml"; Done 0; Done 1; RecvHead; RecvHead].

Lemma failed_file_writes_nothing_witness :
  received first_fails = ["a.yaml"; "b.yaml"] ∧
  out (default init (exec true resolved_second first_fails init)) =
    [Byte.x62] ++ delimiter.
Proof.
  split; [reflexivity|].
  destruct (failed_file_writes_nothing true resolved_second first_fails
              (default init (exec true resolved_second first_fails init)) 0 "a.yaml"
              (ReadFailed "no such file")) as [H _].
  - reflexivity.
  - vm_compute. reflexivity.
  - reflexivity.
  - reflexivity.
  - rewrite H; [reflexivity|]. vm_compute. lia.
Defined.

End examples.

(** * More about ImageReferences *)

Module batch.
Import yaml yit resolve walker store references.

#[local] Existing Instance collected_dec.

(** A tree without its values: kinds, tags and the layout of the children. *)
Fixpoint shape (n : Node) : Node :=
  match n with
  | mkNode k t _ c => mkNode k t "" (shape <$> c)
  end.

Lemma shape_set_Value p v ns : shape <$> set_Value p v ns = shape <$> ns.
Proof.
  revert ns. induction p as [|j p IH]; intros ns; [done|].
  simpl. destruct (ns !! j) as [n|] eqn:Hj; [|done].
  rewrite list_fmap_insert. apply list_insert_id.
  rewrite list_lookup_fmap, Hj. simpl. f_equal.
  destruct n as [k t v0 c]. destruct p as [|j' p']; [done|].
  simpl NKind. simpl Tag. simpl Content. simpl Value.
  cbn [shape]. f_equal. symmetry. apply (IH c).
Qed.

Lemma shape_assign d docs ns : shape <$> assign d docs ns = shape <$> docs.
Proof.
  unfold assign. revert docs. induction ns as [|q ns IH]; intros docs; [done|].
  simpl. by rewrite IH, shape_set_Value.
Qed.

Lemma shape_rewrite_all digests docs entries :
  shape <$> (rewrite_all digests docs entries).1 = shape <$> docs.
Proof.
  revert docs. induction entries as [|[r ns] es IH]; intros docs; [done|].
  simpl. destruct (digests !! r) as [d|]; [|done].
  by rewrite IH, shape_assign.
Qed.

(** The logs that goroutines running side by side can leave: each step
    takes the next call of one of them, whichever it is. *)
Inductive interleaving {A} : list (list A) → list A → Prop :=
  | interleaving_done ts : Forall (λ t, t = []) ts → interleaving ts []
  | interleaving_step ts1 x t ts2 l :
      interleaving (ts1 ++ t :: ts2) l →
      interleaving (ts1 ++ (x :: t) :: ts2) (x :: l).

Lemma interleaving_idle {A} (ts : list (list A)) l :
  interleaving ts l → interleaving ([] :: ts) l.
Proof.
  induction 1 as [ts Hts|ts1 x t ts2 l _ IH].
  - apply interleaving_done. by constructor.
  - apply (interleaving_step ([] :: ts1)), IH.
Qed.

(** One goroutine after the other is one of the interleavings. *)
Lemma interleaving_concat {A} (ts : list (list A)) : interleaving ts (concat ts).
Proof.
  induction ts as [|t ts IH]; simpl.
  - apply interleaving_done. constructor.
  - induction t as [|x t IHt]; simpl.
    + by apply interleaving_idle.
    + apply (interleaving_step []), IHt.
Qed.

Lemma interleaving_perm {A} (ts ts' : list (list A)) l :
  interleaving ts l → ts ≡ₚ ts' → interleaving ts' l.
Proof.
  intros H. revert ts'. induction H as [ts Hts|ts1 x t ts2 l _ IH]; intros ts' Hp.
  - apply interleaving_done. by rewrite <- Hp.
  - assert ((x :: t) ∈ ts') as (ts1' & ts2' & ->)%list_elem_of_split.
    { rewrite <- Hp. apply elem_of_app. right. by left. }
    apply interleaving_step, IH.
    rewrite <- !Permutation_middle in Hp. apply Permutation_cons_inv in Hp.
    rewrite <- !Permutation_middle. by rewrite Hp.
Qed.

Section facts.
Context {Image : Type}.
Variable builder : build.Interface Image.
Variable publisher : publish.Interface Image.
Variable completion : list string → list string.
Variable iteration :
  list (string * list NodePtr) → list (string * list NodePtr).

(** X1.  Whatever the outcome and the schedule, ImageReferences changes no
    kind, no tag and no list of children: the batch it leaves differs from
    the one it was given in scalar values at most. *)
Theorem ImageReferences_keeps_shape docs strict :
  shape <$> docs_after (ImageReferences builder publisher completion iteration docs strict) =
  shape <$> docs.
Proof.
  unfold ImageReferences.
  destruct (collect builder strict ∅ (pointers docs)) as [e|refs]; [done|].
  cbv zeta. destruct (first_err _); [done|].
  pose proof (shape_rewrite_all (sm (build_all builder publisher completion refs)) docs
                (iteration (map_to_list refs))) as H.
  destruct (rewrite_all _ _ _). done.
Qed.

(** In particular the batch keeps its number of documents. *)
Lemma docs_after_length docs strict :
  length (docs_after (ImageReferences builder publisher completion iteration docs strict)) =
  length docs.
Proof.
  unfold ImageReferences.
  destruct (collect builder strict ∅ (pointers docs)) as [e|refs]; [done|].
  cbv zeta. destruct (first_err _); [done|].
  pose proof (shape_rewrite_all (sm (build_all builder publisher completion refs)) docs
                (iteration (map_to_list refs))) as H.
  destruct (rewrite_all _ _ _). simpl in *.
  apply (f_equal length) in H. by rewrite !length_fmap in H.
Qed.

(** The goroutines the second loop starts, one for each key of the
    reference index, each with the calls it makes in their order. *)
Definition goroutines (docs : list Node) (strict : bool) : list (list call) :=
  match collect builder strict ∅ (pointers docs) with
  | inl _ => []
  | inr refs => task_calls builder <$> (map_to_list refs).*1
  end.





Hypothesis completion_perm : ∀ l, completion l ≡ₚ l.
Hypothesis iteration_perm : ∀ l, iteration l ≡ₚ l.

(** The calls of a run in which each goroutine makes its calls in one go,
    in the order of [completion], are one of these interleavings. *)
Lemma calls_made_interleaving docs strict :
  interleaving (goroutines docs strict)
    (calls_made (ImageReferences builder publisher completion iteration docs strict)).
Proof.
  rewrite calls_spec. unfold goroutines.
  destruct (collect builder strict ∅ (pointers docs)) as [e|refs].
  { apply interleaving_done. constructor. }
  apply (interleaving_perm (task_calls builder <$> completion (map_to_list refs).*1)).
  - rewrite flat_map_concat_map. apply interleaving_concat.
  - by rewrite completion_perm.
Qed.

(** The frame of ImageReferences: through a place where no walked node
    with a supported reference sits, the value read afterwards is the value
    read before. *)
Lemma Value_at_frame docs strict p :
  (∀ q, q ∈ walked strict docs → addr q = p → supported builder q = false) →
  Value_at p
    (docs_after (ImageReferences builder publisher completion iteration docs strict)) =
  Value_at p docs.
Proof.
  intros Hp.
  destruct (collect builder strict ∅ (pointers docs)) as [e|refs] eqn:Hc.
  { unfold ImageReferences. by rewrite Hc. }
  destruct (first_err (build_all builder publisher completion refs)) as [e|] eqn:He.
  { by rewrite (ImageReferences_failure _ _ _ _ _ _ _ _ Hc He). }
  destruct (ImageReferences_success _ _ _ _ completion_perm iteration_perm _ _ _ Hc He)
    as (_ & ->). simpl.
  apply apply_writes_other.
  intros w (e & q' & He' & Hq' & ->)%elem_of_writes Ha. simpl in Ha.
  apply (entries_spec iteration iteration_perm) in He'.
  apply collect_index in Hc as (_ & Hidx & _).
  destruct (Hidx _ _ He') as [Hl _]. rewrite Hl in Hq'.
  apply list_elem_of_filter in Hq' as [[_ Hs] Hw].
  rewrite (Hp q' Hw Ha) in Hs. done.
Qed.

(** X2.  A value can only change where a walked node with a supported
    reference sits: wherever the value read after ImageReferences is not
    the value read before (or a value can be read only before or only
    after), the walk yielded the node at that place and the builder
    supports its reference.  Keys and values that are not strings, strings
    the walk leaves out, unsupported strings and nodes that are no scalars
    are never written. *)
Theorem only_collected_nodes_change docs strict p :
  Value_at p
    (docs_after (ImageReferences builder publisher completion iteration docs strict)) ≠
  Value_at p docs →
  ∃ q, q ∈ walked strict docs ∧ addr q = p ∧ supported builder q = true.
Proof.
  intros Hne.
  destruct (decide (Exists (λ q, addr q = p ∧ supported builder q = true)
                      (walked strict docs))) as [Hex|Hnex].
  - apply Exists_exists in Hex as (q & Hq & Ha & Hs). eauto.
  - destruct Hne. apply Value_at_frame.
    intros q Hq Ha. destruct (supported builder q) eqn:Hs; [|done].
    destruct Hnex. apply Exists_exists. eauto.
Qed.

(** X3.  In strict mode a string whose value does not begin with ko:// is
    never rewritten, whether the builder supports it or not. *)
Theorem strict_leaves_unprefixed docs p n :
  node_at p docs = Some n →
  strings.HasPrefix (Value n) koPrefix = false →
  Value_at p
    (docs_after (ImageReferences builder publisher completion iteration docs true)) =
  Some (Value n).
Proof.
  intros Hn Hpre. rewrite Value_at_frame.
  { unfold Value_at. by rewrite Hn. }
  intros q Hq Ha. exfalso.
  pose proof (walked_valid _ _ _ Hq) as Hv. unfold valid in Hv.
  rewrite Ha, Hn in Hv. injection Hv as ->.
  apply walked_qualifies in Hq as [_ Hq]. rewrite Hq in Hpre; done.
Qed.

(** When ImageReferences returns nil. *)
Lemma err_None_iff docs strict :
  err (ImageReferences builder publisher completion iteration docs strict) = None ↔
  (strict = true → ∀ q, q ∈ walked strict docs → supported builder q = true) ∧
  (∀ q, q ∈ walked strict docs → supported builder q = true →
        ∃ d, outcome builder publisher (bare q) = inr d).
Proof.
  destruct (collect builder strict ∅ (pointers docs)) as [e|refs] eqn:Hc.
  { split.
    - unfold ImageReferences. by rewrite Hc.
    - intros [Hsup _].
      destruct (proj1 (collect_fails builder strict docs)) as (Hst & q & Hq & Hs); [eauto|].
      rewrite (Hsup Hst q Hq) in Hs. done. }
  pose proof Hc as (_ & _ & Hsup)%collect_inr.
  pose proof Hc as (Hget & Hidx & Hsome)%collect_index.
  assert (∀ q, q ∈ walked strict docs → supported builder q = true →
               is_Some (refs !! bare q)) as Hkey.
  { intros q Hq Hs. apply Hsome. intros Hnil.
    assert (q ∈ filter (collected builder (bare q)) (walked strict docs)) as Hqf
      by (apply list_elem_of_filter; by split).
    rewrite Hnil in Hqf. by apply elem_of_nil in Hqf. }
  destruct (first_err (build_all builder publisher completion refs)) as [e|] eqn:He.
  - rewrite (ImageReferences_failure _ _ _ _ _ _ _ _ Hc He). simpl.
    split; [done|]. intros [_ Hok]. exfalso.
    unfold build_all in He.
    destruct (foldl_run builder publisher (completion (map_to_list refs).*1)
                (mkGroup ∅ None [])) as (_ & He' & _).
    rewrite He' in He. simpl in He.
    apply head_omap_Some in He as (l1 & r0 & l2 & Hl & Hf & _).
    assert (r0 ∈ completion (map_to_list refs).*1) as Hr0
      by (rewrite Hl; apply elem_of_app; right; by left).
    apply (keys_spec completion completion_perm) in Hr0 as [l Hlr].
    destruct (Hidx _ _ Hlr) as [-> Hne].
    destruct (filter (collected builder r0) (walked strict docs)) as [|q l'] eqn:Hfl; [done|].
    assert (q ∈ filter (collected builder r0) (walked strict docs)) as Hq
      by (rewrite Hfl; by left).
    apply list_elem_of_filter in Hq as [[Hb Hs] Hq].
    destruct (Hok q Hq Hs) as [d Hd]. unfold failure in Hf.
    rewrite Hb in Hd. rewrite Hd in Hf. done.
  - destruct (ImageReferences_success _ _ _ _ completion_perm iteration_perm _ _ _ Hc He)
      as (Hsm & ->). simpl. split; [|done]. intros _. split; [done|].
    intros q Hq Hs. destruct (Hsm _ (Hkey q Hq Hs)) as (d & Hd & _). eauto.
Qed.

(** X4.  ImageReferences returns nil exactly when the walk meets no strict
    violation and Build then Publish succeed for the reference of every
    supported walked node; the schedule has no say in it. *)
Theorem succeeds_iff docs strict :
  err (ImageReferences builder publisher completion iteration docs strict) = None ↔
  (strict = true → ∀ q, q ∈ walked strict docs → supported builder q = true) ∧
  (∀ q, q ∈ walked strict docs → supported builder q = true →
        ∃ d, outcome builder publisher (bare q) = inr d).
Proof. apply err_None_iff. Qed.

(** X5.  Every error ImageReferences returns is either the strict-reference
    error of an unsupported walked node, in strict mode, or the error that
    Build or Publish returned for a reference it did call Build for; the
    error of the third loop, for a digest that is missing, never comes
    out of it. *)
Theorem errors_are_strict_or_external docs strict e :
  err (ImageReferences builder publisher completion iteration docs strict) = Some e →
  (strict = true ∧
   ∃ q, q ∈ walked strict docs ∧ supported builder q = false ∧
        e = ErrStrict (strings.TrimSpace (Value (deref q)))) ∨
  (∃ r, CallBuild r ∈
          calls_made (ImageReferences builder publisher completion iteration docs strict) ∧
        outcome builder publisher r = inl e).
Proof.
  rewrite calls_spec.
  destruct (collect builder strict ∅ (pointers docs)) as [e'|refs] eqn:Hc.
  { unfold ImageReferences. rewrite Hc. simpl. intros [= ->]. left.
    by apply collect_inl in Hc. }
  destruct (first_err (build_all builder publisher completion refs)) as [e'|] eqn:He.
  - rewrite (ImageReferences_failure _ _ _ _ _ _ _ _ Hc He). simpl. intros [= ->]. right.
    unfold build_all in He.
    destruct (foldl_run builder publisher (completion (map_to_list refs).*1)
                (mkGroup ∅ None [])) as (_ & He' & _).
    rewrite He' in He. simpl in He.
    apply head_omap_Some in He as (l1 & r0 & l2 & Hl & Hf & _).
    exists r0. split.
    + apply (proj2 (CallBuild_task_calls builder completion iteration
                      completion_perm iteration_perm _ _)).
      rewrite Hl. apply elem_of_app. right. by left.
    + unfold failure in Hf. destruct (outcome builder publisher r0); congruence.
  - by destruct (ImageReferences_success _ _ _ _ completion_perm iteration_perm _ _ _ Hc He)
      as (_ & ->).
Qed.

End facts.

Section schedules.
Context {Image : Type}.
Variable builder : build.Interface Image.
Variable publisher : publish.Interface Image.
Variables completion completion' : list string → list string.
Variables iteration iteration' :
  list (string * list NodePtr) → list (string * list NodePtr).
Hypothesis completion_perm : ∀ l, completion l ≡ₚ l.
Hypothesis iteration_perm : ∀ l, iteration l ≡ₚ l.
Hypothesis completion_perm' : ∀ l, completion' l ≡ₚ l.
Hypothesis iteration_perm' : ∀ l, iteration' l ≡ₚ l.

(** X7.  Two runs of ImageReferences on the same batch that differ only in
    the order in which the goroutines finish and the map is ranged over
    agree on success, make the same calls up to their order, and leave
    the same value at every place of the batch. *)
Theorem schedule_does_not_matter docs strict p :
  (err (ImageReferences builder publisher completion iteration docs strict) = None ↔
   err (ImageReferences builder publisher completion' iteration' docs strict) = None) ∧
  calls_made (ImageReferences builder publisher completion iteration docs strict) ≡ₚ
    calls_made (ImageReferences builder publisher completion' iteration' docs strict) ∧
  Value_at p
    (docs_after (ImageReferences builder publisher completion iteration docs strict)) =
  Value_at p
    (docs_after (ImageReferences builder publisher completion' iteration' docs strict)).
Proof.
  assert (err (ImageReferences builder publisher completion iteration docs strict) = None ↔
          err (ImageReferences builder publisher completion' iteration' docs strict) = None)
    as Hiff.
  { rewrite (err_None_iff builder publisher completion iteration
               completion_perm iteration_perm).
    rewrite (err_None_iff builder publisher completion' iteration'
               completion_perm' iteration_perm'). done. }
  split_and!; [done| |].
  - rewrite !calls_spec.
    destruct (collect builder strict ∅ (pointers docs)) as [e|refs]; [done|].
    apply Permutation_flat_map. by rewrite completion_perm, completion_perm'.
  - destruct (decide (Exists (λ q, addr q = p ∧ supported builder q = true)
                        (walked strict docs))) as [Hex|Hnex].
    + apply Exists_exists in Hex as (q & Hq & <- & Hs).
      rewrite (Value_after builder publisher completion iteration
                 completion_perm iteration_perm _ _ _ Hq).
      rewrite (Value_after builder publisher completion' iteration'
                 completion_perm' iteration_perm' _ _ _ Hq).
      destruct (err (ImageReferences builder publisher completion iteration docs strict)),
        (err (ImageReferences builder publisher completion' iteration' docs strict));
        try done.
      * by pose proof (proj2 Hiff eq_refl).
      * by pose proof (proj1 Hiff eq_refl).
    + assert (∀ q, q ∈ walked strict docs → addr q = p → supported builder q = false) as Hp.
      { intros q Hq Ha. destruct (supported builder q) eqn:Hs; [|done].
        destruct Hnex. apply Exists_exists. eauto. }
      rewrite (Value_at_frame builder publisher completion iteration
                 completion_perm iteration_perm _ _ _ Hp).
      rewrite (Value_at_frame builder publisher completion' iteration'
                 completion_perm' iteration_perm' _ _ _ Hp). done.
Qed.

End schedules.

End batch.

(** * More about the reference walker *)

Module walks.
Import yaml yit resolve walker store references.

Lemma preorder_prefix q q' : q' ∈ preorder_of q → addr q `prefix_of` addr q'.
Proof.
  remember (psize q) as w eqn:Hw. revert q Hw.
  induction w as [w IH] using lt_wf_ind. intros q ->.
  rewrite preorder_of_unfold. intros [->|Hin]%elem_of_cons; [done|].
  apply list_elem_of_In, in_flat_map in Hin as (c & Hc%list_elem_of_In & Hin%list_elem_of_In).
  etrans; [|eapply (IH (psize c)); eauto using psize_child_lt].
  unfold children in Hc. apply elem_of_lookup_imap in Hc as (i & x & -> & _).
  simpl. by apply prefix_app_r.
Qed.

Lemma prefix_same_length (a b x : Path) :
  a `prefix_of` x → b `prefix_of` x → length a = length b → a = b.
Proof. intros [k ->] [k' Hk] Hlen. by apply (app_inj_1 _ _ _ _ Hlen) in Hk as [-> _]. Qed.

(** Subtrees hanging at different places of the same depth share no place. *)
Lemma NoDup_subtrees (n : nat) (cs : list NodePtr) :
  NoDup (addr <$> cs) →
  (∀ c, c ∈ cs → length (addr c) = n) →
  (∀ c, c ∈ cs → NoDup (addr <$> preorder_of c)) →
  NoDup (addr <$> flat_map preorder_of cs).
Proof.
  induction cs as [|c cs IH]; intros Hnd Hlen Hsub; [constructor|].
  simpl. rewrite fmap_app. csimpl in Hnd. apply NoDup_cons in Hnd as [Hc Hnd].
  apply NoDup_app. split_and!.
  - apply Hsub. by left.
  - intros x (q & -> & Hq)%list_elem_of_fmap (q' & Hx & Hq')%list_elem_of_fmap.
    apply list_elem_of_In, in_flat_map in Hq' as (c' & Hc'%list_elem_of_In & Hq'%list_elem_of_In).
    apply preorder_prefix in Hq, Hq'. rewrite <- Hx in Hq'.
    apply Hc. apply list_elem_of_fmap. exists c'. split; [|done].
    apply (prefix_same_length _ _ _ Hq Hq').
    rewrite (Hlen c), (Hlen c'); [done|by right|by left].
  - apply IH; [done|..]; intros; [apply Hlen|apply Hsub]; by right.
Qed.

Lemma addr_imap_snoc (a : Path) (l : list Node) :
  NoDup (addr <$> imap (λ i c, mkPtr (a ++ [i]) c) l) ∧
  ∀ c, c ∈ imap (λ i c, mkPtr (a ++ [i]) c) l → length (addr c) = S (length a).
Proof.
  split.
  - apply NoDup_alt. intros i j x.
    rewrite !list_lookup_fmap, !list_lookup_imap.
    destruct (l !! i) as [ni|]; [|done]. destruct (l !! j) as [nj|]; [|done].
    simpl. intros [= <-] [= Hj]. apply app_inv_head in Hj. by injection Hj.
  - intros c (i & x & -> & _)%elem_of_lookup_imap. simpl.
    rewrite length_app. simpl. lia.
Qed.

Lemma NoDup_preorder q : NoDup (addr <$> preorder_of q).
Proof.
  remember (psize q) as w eqn:Hw. revert q Hw.
  induction w as [w IH] using lt_wf_ind. intros q ->.
  rewrite preorder_of_unfold. csimpl. apply NoDup_cons. split.
  - intros (q' & Hx & Hq')%list_elem_of_fmap.
    apply list_elem_of_In, in_flat_map in Hq' as (c & Hc%list_elem_of_In & Hq'%list_elem_of_In).
    apply preorder_prefix in Hq'. rewrite <- Hx in Hq'.
    unfold children in Hc. apply elem_of_lookup_imap in Hc as (i & x & -> & _).
    simpl in Hq'. apply prefix_length in Hq'. rewrite length_app in Hq'. simpl in Hq'. lia.
  - destruct (addr_imap_snoc (addr q) (Content (deref q))) as [Hnd Hlen].
    apply (NoDup_subtrees (S (length (addr q)))); [done..|].
    intros c Hc. eapply (IH (psize c)); eauto using psize_child_lt.
Qed.

Lemma walked_sublist strict ds :
  addr <$> flat_map (walk strict) ds `sublist_of` addr <$> flat_map preorder_of ds.
Proof.
  induction ds as [|d ds IH]; [done|]. simpl. rewrite !fmap_app.
  apply sublist_app; [|done]. apply fmap_sublist. rewrite walk_spec. apply sublist_filter.
Qed.

(** X8.  The walk over a batch hands out every node at most once: no two
    pointers it yields, in one document or in two, are the same place.  The
    N nodes collected for a reference are N different nodes. *)
Theorem walk_visits_each_node_once strict docs :
  NoDup (addr <$> walked strict docs).
Proof.
  eapply sublist_NoDup; [|apply (walked_sublist strict (pointers docs))].
  unfold pointers.
  destruct (addr_imap_snoc [] docs) as [Hnd Hlen].
  apply (NoDup_subtrees 1); [done..|]. intros c _. apply NoDup_preorder.
Qed.

(** X9.  What the walk yields in strict mode is what it yields in
    non-strict mode with the nodes whose value does not begin with ko://
    struck out: the same nodes in the same order, never one more. *)
Theorem strict_walk_is_filtered_walk doc :
  walk true doc =
  filter (λ q, strings.HasPrefix (Value (deref q)) koPrefix = true) (walk false doc).
Proof.
  rewrite !walk_spec, list_filter_filter. apply list_filter_iff.
  intros q. unfold qualifies. split.
  - intros [Hs Hp]. split; [by apply Hp|]. split; [done|discriminate].
  - intros [Hp [Hs _]]. done.
Qed.

End walks.

(** * More about resolveFile *)

Module selection.
Import yaml commands files.

Section facts.
Context {Image Selector : Type}.
Variable labels_Parse : string → string + Selector.
Variable ReadStdin : string + bytes.
Variable ReadFile : string → string + bytes.
Variable Decode : bytes → list Node * option string.
Variable MatchesSelector : Node → Selector → string + bool.
Variable Marshal : Node → string + bytes.
Variable completion : list string → list string.
Variable iteration :
  list (string * list yit.NodePtr) → list (string * list yit.NodePtr).

(** The errors that come before any document is walked. *)
Definition early (e : file_error) : Prop :=
  match e with
  | ErrorResolving _ | FailedToEncode _ => False
  | _ => True
  end.

Lemma decode_loop_error sel acc stream stop e :
  decode_loop MatchesSelector sel acc stream stop = inl e → early e.
Proof.
  revert acc. induction stream as [|doc rest IH]; intros acc; simpl.
  - destruct stop; [|done]. by intros [= <-].
  - destruct sel as [s|]; [|apply IH].
    destruct (MatchesSelector doc s) as [e'|[]]; [by intros [= <-]|apply IH..].
Qed.

Lemma encode_loop_error buf first docs e :
  encode_loop Marshal buf first docs = inl e → ¬ early e.
Proof.
  revert buf first. induction docs as [|doc rest IH]; intros buf first; simpl; [done|].
  destruct (Marshal doc) as [e'|b]; [|apply IH]. intros [= <-]. by intros [].
Qed.

(** X10.  No Build and no Publish is asked for before the whole file is
    read, decoded and put to the selector: when resolveFile fails on the
    selector, on reading, on a document that does not decode (be it the
    last of the file) or on evaluating the selector, no call was made. *)
Theorem early_error_makes_no_call f builder pub selector strict e :
  (@resolveFile Image Selector labels_Parse ReadStdin ReadFile Decode MatchesSelector
     Marshal completion iteration f builder pub selector strict).1 = inl e →
  early e →
  (@resolveFile Image Selector labels_Parse ReadStdin ReadFile Decode MatchesSelector
     Marshal completion iteration f builder pub selector strict).2 = [].
Proof.
  unfold resolveFile.
  destruct (if decide (selector = "") then _ else _) as [e0|sel]; [done|].
  destruct (if decide (f = "-") then ReadStdin else ReadFile f) as [e0|b]; [done|].
  destruct (Decode b) as [stream stop].
  destruct (decode_loop MatchesSelector sel [] stream stop) as [e0|docNodes]; [done|].
  destruct (resolve.err _) as [e0|]; simpl.
  - intros [= <-]. done.
  - intros He%encode_loop_error. done.
Qed.

Lemma decode_loop_None acc stream stop :
  decode_loop MatchesSelector None acc stream stop =
  match stop with
  | None => inr (acc ++ stream)
  | Some e => inl (DecodeFailed e)
  end.
Proof.
  revert acc. induction stream as [|doc rest IH]; intros acc; simpl.
  - by rewrite app_nil_r.
  - rewrite IH. by rewrite <- app_assoc.
Qed.

(** X12.  Without a selector (the empty string) every document the
    decoder reads is kept: the batch given to ImageReferences is the whole
    stream in its order, what is encoded is that batch as ImageReferences
    left it, with as many documents as were decoded, and labels.Parse and
    resolve.MatchesSelector have no part in the result. *)
Theorem no_selector_keeps_every_document f builder pub strict b stream :
  (if decide (f = "-") then ReadStdin else ReadFile f) = inr b →
  Decode b = (stream, None) →
  @resolveFile Image Selector labels_Parse ReadStdin ReadFile Decode MatchesSelector
    Marshal completion iteration f builder pub "" strict =
  (match resolve.err
           (resolve.ImageReferences builder pub completion iteration stream strict) with
   | Some e => inl (ErrorResolving e)
   | None =>
       encode_loop Marshal [] true
         (resolve.docs_after
            (resolve.ImageReferences builder pub completion iteration stream strict))
   end,
   resolve.calls_made
     (resolve.ImageReferences builder pub completion iteration stream strict)) ∧
  length (resolve.docs_after
            (resolve.ImageReferences builder pub completion iteration stream strict)) =
  length stream.
Proof.
  intros Hread Hdec. split; [|apply batch.docs_after_length].
  unfold resolveFile. rewrite (decide_True (P := "" = "")) by done.
  rewrite Hread, Hdec, decode_loop_None. simpl.
  by destruct (resolve.err _).
Qed.

Lemma decode_loop_rejected sel acc stream stop :
  (∀ doc, doc ∈ stream → MatchesSelector doc sel = inr false) →
  decode_loop MatchesSelector (Some sel) acc stream stop =
  match stop with
  | None => inr acc
  | Some e => inl (DecodeFailed e)
  end.
Proof.
  induction stream as [|doc rest IH]; intros Hall; simpl; [done|].
  rewrite (Hall doc) by (by left). apply IH. intros; apply Hall; by right.
Qed.

Hypothesis completion_perm : ∀ l, completion l ≡ₚ l.
Hypothesis iteration_perm : ∀ l, iteration l ≡ₚ l.

(** X11.  A selector that rejects every document of a file that reads and
    decodes gives no error: the output is empty and nothing is built. *)
Theorem selecting_nothing_is_no_error f builder pub selector sel strict b stream :
  selector ≠ "" → labels_Parse selector = inr sel →
  (if decide (f = "-") then ReadStdin else ReadFile f) = inr b →
  Decode b = (stream, None) →
  (∀ doc, doc ∈ stream → MatchesSelector doc sel = inr false) →
  @resolveFile Image Selector labels_Parse ReadStdin ReadFile Decode MatchesSelector
    Marshal completion iteration f builder pub selector strict = (inr [], []).
Proof.
  intros Hne Hparse Hread Hdec Hall. unfold resolveFile.
  rewrite (decide_False (P := selector = "")) by done.
  rewrite Hparse, Hread, Hdec, decode_loop_rejected by done.
  unfold resolve.ImageReferences. simpl. unfold resolve.build_all.
  rewrite map_to_list_empty. simpl.
  assert (completion [] = []) as -> by apply Permutation_nil_r, completion_perm.
  simpl.
  assert (iteration [] = []) as -> by apply Permutation_nil_r, iteration_perm.
  done.
Qed.

End facts.

End selection.

(** * More about resolveFilesToWriter *)

Module loop.
Import commands orchestrator.

Section facts.
Variable Watch : bool.
Variable resolved : nat → string → file_error + (bytes * list string).

(** What the loop keeps beside [Inv]: a future taken off the list without
    a value belongs to watch mode, without watch nothing is logged short
    of the fatal exit, and the map from file names to import paths holds
    what resolutions of those files returned. *)
Record Kept (arr : list string) (s : state) : Prop := {
  kept_failed : ∀ i f e, i < dequeued s → arr !! i = Some f →
      resolved i f = inl e → Watch = true;
  kept_logged : Watch = false → st s ≠ Fatal → logged s = [];
  kept_sm : ∀ f ips, sm s !! f = Some ips →
      ∃ n b, arr !! n = Some f ∧ resolved n f = inr (b, ips) }.

Lemma Kept_init : Kept [] init.
Proof. split; simpl; done. Qed.

Lemma step_Kept arr s e s' :
  Inv Watch resolved arr s → Kept arr s → step Watch resolved e s = Some s' →
  Kept (arr ++ match e with RecvFile f => [f] | _ => [] end) s'.
Proof.
  intros [Hsp Hlen Hfut Hout Hret] [Hfail Hlog Hsm] Hstep.
  destruct s as [fo futs sp o lg m ad stt]. unfold dequeued in *. simpl in *.
  destruct stt; [|done..]. clear Hret.
  assert (∀ f ips, m !! f = Some ips →
            ∀ ext, ∃ n b, (arr ++ ext) !! n = Some f ∧ resolved n f = inr (b, ips)) as Hsm'.
  { intros f ips Hf ext. destruct (Hsm f ips Hf) as (n & b & Hn & Hr).
    exists n, b. split; [|done]. by apply lookup_app_l_Some. }
  destruct e as [f| | |e| |k|ok]; simpl in Hstep.
  - destruct fo; [|done]. injection Hstep as <-.
    split; unfold dequeued; simpl; rewrite ?length_app; simpl.
    + intros i f' e Hi Hf'. apply Hfail; [lia|].
      rewrite lookup_app_l in Hf' by lia. done.
    + intros HW _. by apply Hlog.
    + intros f' ips Hf'. by apply Hsm'.
  - destruct fo; [|done]. injection Hstep as <-. rewrite app_nil_r.
    split; unfold dequeued; simpl; [done| |done]. intros HW _. by apply Hlog.
  - destruct futs as [|bf rest]; [done|]. simpl in *. rewrite app_nil_r.
    destruct (Hfut 0 bf eq_refl) as (Hid & Harr & Hok).
    rewrite Nat.add_0_r in *. unfold fut_ok in Hok. rewrite Hid in Hok.
    assert (∀ i, i < sp - length rest → i < sp - S (length rest) ∨ i = sp - S (length rest))
      as Hcase by lia.
    destruct (fut bf) as [|b|]; [done| |]; injection Hstep as <-;
      (split; unfold dequeued; simpl; [|intros HW _; by apply Hlog|done]);
      intros i f e Hi Hf He; (destruct (Hcase i Hi) as [Hlt| ->]; [by eapply Hfail|]).
    + rewrite Harr in Hf. injection Hf as <-. destruct Hok as [ips Hr]. congruence.
    + by destruct Hok.
  - destruct Watch eqn:HW; [|done]. injection Hstep as <-. rewrite app_nil_r.
    split; unfold dequeued; simpl; [done| |done]. intros; congruence.
  - destruct futs; [|done]. destruct fo; [done|]. injection Hstep as <-.
    rewrite app_nil_r. split; unfold dequeued; simpl; [done| |done].
    intros HW _. by apply Hlog.
  - rewrite app_nil_r.
    destruct (futs !! k) as [[n f fu]|] eqn:Hk; [|done].
    destruct fu; [|done..].
    destruct (Hfut k _ Hk) as (Hid & Harr & _). simpl in *.
    destruct (resolved n f) as [err|[b ips]] eqn:Hr.
    + destruct Watch eqn:HW; injection Hstep as <-;
        (split; unfold dequeued; simpl; rewrite ?set_fut_length; [| |done]).
      * done.
      * intros; congruence.
      * intros i f' e Hi Hf' He. rewrite HW. by eapply Hfail.
      * intros _ Hne. by destruct Hne.
    + injection Hstep as <-.
      split; unfold dequeued; simpl; rewrite ?set_fut_length; [done| |].
      * intros HW _. by apply Hlog.
      * intros f' ips'. destruct (decide (f = f')) as [<-|Hne].
        -- rewrite lookup_insert_eq. intros [= <-]. exists n, b.
           split; [by rewrite Hid|done].
        -- rewrite lookup_insert_ne by done. apply Hsm.
  - destruct ad; [done|]. injection Hstep as <-. rewrite app_nil_r.
    split; unfold dequeued; simpl; [done| |done].
    intros HW Hst. apply Hlog; [done|]. by destruct ok.
Qed.

Lemma exec_Kept evs s :
  exec Watch resolved evs init = Some s → Kept (received evs) s.
Proof.
  revert s. induction evs as [|e evs IH] using rev_ind; intros s.
  - intros [= <-]. apply Kept_init.
  - rewrite exec_snoc, received_snoc.
    destruct (exec Watch resolved evs init) as [s0|] eqn:Hs0; [|done]. simpl.
    intros Hstep. eapply step_Kept; eauto using exec_Inv.
Qed.

(** X13.  Without watch, a run that reaches the end of the loop has
    resolved every file name it received, with no error, and has logged
    nothing: no file is skipped on the way to a normal return. *)
Theorem one_shot_return_is_complete evs s :
  Watch = false → exec Watch resolved evs init = Some s → st s = Returned →
  (∀ i f, received evs !! i = Some f → ∃ b ips, resolved i f = inr (b, ips)) ∧
  logged s = [] ∧
  length (received evs) = spawned s.
Proof.
  intros HW Hexec Hret.
  pose proof (exec_Inv _ _ _ _ Hexec) as Hinv. pose proof (exec_Kept _ _ Hexec) as Hk.
  split_and!.
  - intros i f Hi. destruct (resolved i f) as [e|[b ips]] eqn:Hr; [|eauto].
    rewrite (kept_failed _ _ Hk i f e) in HW; [done| |done..].
    unfold dequeued. rewrite (inv_returned _ _ _ _ Hinv Hret), (inv_spawned _ _ _ _ Hinv).
    simpl. apply lookup_lt_Some in Hi. lia.
  - apply (kept_logged _ _ Hk HW). by rewrite Hret.
  - by rewrite (inv_spawned _ _ _ _ Hinv).
Qed.

(** X15.  The map from file names to import paths only ever holds, for a
    file name, the import paths that a successful resolution of that name
    recorded: a failed resolution stores nothing. *)
Theorem sm_holds_resolved_import_paths evs s f ips :
  exec Watch resolved evs init = Some s → sm s !! f = Some ips →
  ∃ n b, received evs !! n = Some f ∧ resolved n f = inr (b, ips).
Proof. intros Hk%exec_Kept. apply (kept_sm _ _ Hk). Qed.

Lemma exec_cons e evs s :
  exec Watch resolved (e :: evs) s =
  step Watch resolved e s ≫= exec Watch resolved evs.
Proof.
  unfold exec. simpl. destruct (step Watch resolved e s) as [s1|]; [done|]. simpl.
  induction evs as [|e' evs IH]; [done|]. simpl. apply IH.
Qed.

Lemma exec_cons_Some e evs s s1 :
  step Watch resolved e s = Some s1 →
  exec Watch resolved (e :: evs) s = exec Watch resolved evs s1.
Proof. intros H. by rewrite exec_cons, H. Qed.

(** What a future still on the list will have written once the loop has
    come past it. *)
Definition yield (sl : slot) : bytes :=
  match fut sl with
  | Pending => emit resolved (id sl) (file sl)
  | Offered b => b ++ delimiter
  | Closed => []
  end.

(** X14.  Once the channel of file names is closed the loop can always be
    brought to its end: finishing the resolutions in the order of the list
    and taking the futures off the head takes at most two steps for each
    future and one more.  It ends in the normal return with the list empty
    and everything the futures had to give written in their order, or,
    without watch only, in the fatal exit. *)
Theorem closed_channel_drains s :
  st s = Looping → fs_open s = false →
  ∃ evs s', exec Watch resolved evs s = Some s' ∧
    length evs ≤ 2 * length (futures s) + 1 ∧
    (st s' = Returned ∨ (Watch = false ∧ st s' = Fatal)) ∧
    (st s' = Returned →
       futures s' = [] ∧ out s' = out s ++ concat (yield <$> futures s)).
Proof.
  remember (length (futures s)) as n eqn:Hn. revert s Hn.
  induction n as [|n IH]; intros [fo futs sp o lg m ad stt]; simpl;
    intros Hn -> ->.
  - destruct futs; [|done]. exists [Break]. eexists. split; [reflexivity|].
    simpl. split_and!; [lia|by left|]. intros _. by rewrite app_nil_r.
  - destruct futs as [|[i f fu] rest]; [done|]. injection Hn as Hn.
    assert (∀ o' lg' m' ad',
              ∃ evs s', exec Watch resolved evs
                          (mkSt false rest sp o' lg' m' ad' Looping) = Some s' ∧
                length evs ≤ 2 * n + 1 ∧
                (st s' = Returned ∨ (Watch = false ∧ st s' = Fatal)) ∧
                (st s' = Returned →
                   futures s' = [] ∧ out s' = o' ++ concat (yield <$> rest))) as Hrest.
    { intros o' lg' m' ad'.
      destruct (IH (mkSt false rest sp o' lg' m' ad' Looping)) as (evs & s' & H);
        [done..|]. subst n. eauto. }
    rewrite fmap_cons. cbn [concat]. unfold yield at 1. cbn [fut id file].
    destruct fu as [|b|].
    + destruct (resolved i f) as [err|[b ips]] eqn:Hr.
      * assert (Watch = true ∨ Watch = false) as [HW|HW] by (destruct Watch; auto).
        -- destruct (Hrest o (lg ++ [(f, err)]) m ad) as (evs & s' & He & Hl & Hst & Ho).
           exists (Done 0 :: RecvHead :: evs), s'. split_and!; [|simpl; lia|done|].
           { erewrite exec_cons_Some by (simpl; rewrite Hr, HW; reflexivity).
             erewrite exec_cons_Some by reflexivity. exact He. }
           intros Hret. destruct (Ho Hret) as [-> ->]. unfold emit. by rewrite Hr.
        -- exists [Done 0]. eexists. split.
           { erewrite exec_cons_Some by (simpl; rewrite Hr, HW; reflexivity).
             reflexivity. }
           simpl. split_and!; [lia|by right|done].
      * destruct (Hrest (o ++ b ++ delimiter) lg (<[f:=ips]> m)
                    (if Watch then S ad else ad)) as (evs & s' & He & Hl & Hst & Ho).
        exists (Done 0 :: RecvHead :: evs), s'. split_and!; [|simpl; lia|done|].
        { erewrite exec_cons_Some by (simpl; rewrite Hr; reflexivity).
          erewrite exec_cons_Some by reflexivity. exact He. }
        intros Hret. destruct (Ho Hret) as [-> ->]. unfold emit. rewrite Hr.
        by rewrite <- !app_assoc.
    + destruct (Hrest (o ++ b ++ delimiter) lg m (if Watch then S ad else ad))
        as (evs & s' & He & Hl & Hst & Ho).
      exists (RecvHead :: evs), s'. split_and!; [|simpl; lia|done|].
      { erewrite exec_cons_Some by reflexivity. exact He. }
      intros Hret. destruct (Ho Hret) as [-> ->]. by rewrite <- !app_assoc.
    + destruct (Hrest o lg m ad) as (evs & s' & He & Hl & Hst & Ho).
      exists (RecvHead :: evs), s'. split_and!; [|simpl; lia|done|].
      { erewrite exec_cons_Some by reflexivity. exact He. }
      intros Hret. destruct (Ho Hret) as [-> ->]. done.
Qed.

Lemma step_out e s s1 :
  step Watch resolved e s = Some s1 →
  out s1 = out s ∨ ∃ b, out s1 = out s ++ b ++ delimiter.
Proof.
  destruct s as [fo futs sp o lg m ad stt]. simpl.
  destruct stt; [|done..].
  destruct e as [f| | |e| |k|ok].
  - destruct fo; [|done]. intros [= <-]. by left.
  - destruct fo; [|done]. intros [= <-]. by left.
  - destruct futs as [|bf rest]; [done|].
    destruct (fut bf) as [|b|]; [done| |]; intros [= <-]; [right; by exists b|by left].
  - destruct Watch; [|done]. intros [= <-]. by left.
  - destruct futs; [|done]. destruct fo; [done|]. intros [= <-]. by left.
  - destruct (futs !! k) as [[n f fu]|]; [|done]. destruct fu; [|done..].
    destruct (resolved n f) as [err|[b ips]].
    + destruct Watch; intros [= <-]; by left.
    + intros [= <-]. by left.
  - destruct ad; [done|]. intros [= <-]. by left.
Qed.

(** X16.  The output is only ever appended to, and by whole resources:
    what a run adds to the bytes already written is nothing, or ends with
    the delimiter.  No step takes a byte back, and the stream never stops
    in the middle of a resource. *)
Theorem output_grows_by_whole_resources evs s s' :
  exec Watch resolved evs s = Some s' →
  ∃ ext, out s' = out s ++ ext ∧ (ext = [] ∨ delimiter `suffix_of` ext).
Proof.
  revert s. induction evs as [|e evs IH]; intros s.
  - intros [= <-]. exists []. split; [by rewrite app_nil_r|by left].
  - rewrite exec_cons. destruct (step Watch resolved e s) as [s1|] eqn:Hs; [|done].
    simpl. intros (ext & -> & Hext)%IH.
    destruct (step_out _ _ _ Hs) as [->|[b ->]]; [eauto|].
    exists ((b ++ delimiter) ++ ext). split; [by rewrite <- !app_assoc|].
    right. destruct Hext as [->|[k ->]].
    + rewrite app_nil_r. by exists b.
    + exists ((b ++ delimiter) ++ k). by rewrite <- !app_assoc.
Qed.

End facts.

End loop.

(** * More about the callback of the watch *)

Module callback.
Import commands.

Section facts.
Variable ss : gset string.

Lemma resends_onEntry key value :
  length (filter (λ a, a = Resend key) (onEntry ss key value)) =
  length (filter (λ ip, ip ∈ ss) value).
Proof.
  unfold onEntry. induction value as [|ip value IH]; [done|].
  simpl. rewrite filter_app, length_app, IH, (filter_cons (λ ip, ip ∈ ss)).
  destruct (decide (ip ∈ ss)); [|done].
  rewrite filter_cons_False by done. by rewrite filter_cons_True.
Qed.

Lemma resends_onEntry_other key k value :
  k ≠ key → filter (λ a, a = Resend key) (onEntry ss k value) = [].
Proof.
  intros Hne. unfold onEntry. induction value as [|ip value IH]; [done|].
  simpl. rewrite filter_app, IH, app_nil_r.
  destruct (decide (ip ∈ ss)); [|done].
  rewrite filter_cons_False by done. rewrite filter_cons_False; [done|].
  intros [= ->]. done.
Qed.

Lemma resends_absent key entries :
  key ∉ entries.*1 → filter (λ a, a = Resend key) (onAffected ss entries) = [].
Proof.
  unfold onAffected. induction entries as [|[k v] entries IH]; [done|].
  csimpl. intros [Hk Hin]%not_elem_of_cons.
  by rewrite filter_app, resends_onEntry_other, IH.
Qed.

(** X17.  On a notification a file is put back on the channel once for
    every affected import path it records, not once: a file whose
    resolution recorded [n] of the changed import paths (counted as often
    as they are recorded) is resent [n] times. *)
Theorem resent_once_per_affected_import_path entries key value :
  NoDup entries.*1 → (key, value) ∈ entries →
  length (filter (λ a, a = Resend key) (onAffected ss entries)) =
  length (filter (λ ip, ip ∈ ss) value).
Proof.
  unfold onAffected. induction entries as [|[k v] entries IH]; csimpl.
  { by intros _ ?%elem_of_nil. }
  intros [Hk Hnd]%NoDup_cons [Heq|Hin]%elem_of_cons.
  - injection Heq as -> ->. rewrite filter_app, length_app, resends_onEntry.
    fold (onAffected ss entries). by rewrite resends_absent.
  - assert (k ≠ key) as Hne.
    { intros ->. apply Hk. apply list_elem_of_fmap. by exists (key, value). }
    rewrite filter_app, resends_onEntry_other by done. by apply IH.
Qed.

(** In a list of actions every resend comes right after the invalidation
    of an affected import path recorded for the file resent. *)
Definition paired (all : list (string * list string)) (l : list action) : Prop :=
  ∀ before key after, l = before ++ Resend key :: after →
    ∃ before' ip value, before = before' ++ [Invalidate ip] ∧
      ip ∈ ss ∧ (key, value) ∈ all ∧ ip ∈ value.

Lemma paired_onEntry all key value ips rest :
  (key, value) ∈ all → ips ⊆ value → paired all rest →
  paired all (onEntry ss key ips ++ rest).
Proof.
  intros Hkv. unfold onEntry. induction ips as [|ip ips IH]; intros Hsub Hrest; [done|].
  simpl. destruct (decide (ip ∈ ss)) as [Hip|Hip]; simpl.
  - intros [|b0 [|b1 before]] key' after; simpl.
    + intros [=].
    + intros [= <- <- _]. exists [], ip, value. split_and!; [done..|].
      apply Hsub. by left.
    + intros [= <- <- Hl].
      destruct (IH (λ x Hx, Hsub x (list_elem_of_further _ _ _ Hx)) Hrest _ _ _ Hl)
        as (before' & ip' & value' & -> & H).
      exists (Invalidate ip :: Resend key :: before'), ip', value'. done.
  - apply IH; [|done]. intros x Hx. apply Hsub. by right.
Qed.

Lemma paired_onAffected all entries :
  entries ⊆ all → paired all (onAffected ss entries).
Proof.
  unfold onAffected. induction entries as [|[k v] entries IH]; intros Hsub.
  - intros [|??] ??; done.
  - simpl. apply (paired_onEntry all k v); [apply Hsub; by left|done|].
    apply IH. intros x Hx. apply Hsub. by right.
Qed.

(** X18.  The callback never puts a file on the channel without having
    invalidated a build just before: each resend of a file is immediately
    preceded by the invalidation of an import path that is affected and
    that the file records. *)
Theorem resend_follows_invalidation entries before key after :
  onAffected ss entries = before ++ Resend key :: after →
  ∃ before' ip value, before = before' ++ [Invalidate ip] ∧
    ip ∈ ss ∧ (key, value) ∈ entries ∧ ip ∈ value.
Proof. by apply (paired_onAffected entries entries). Qed.

End facts.

End callback.

(** * The properties above on concrete inputs *)

Module cases.
Import yaml yit resolve commands walker references orchestrator files examples.

(** [image: a], an import path written without the ko:// prefix. *)
Definition unprefixed : Node := document (mapping [scalar "image"; scalar "a"]).

(** A builder that supports every reference. *)
Definition builder_any : build.Interface string :=
  build.Build_Interface string (λ r, true) (λ r, inr ("image of " +:+ r)).

Lemma reverse_perm {A} (l : list A) : reverse l ≡ₚ l.
Proof. apply reverse_Permutation. Qed.



Lemma only_collected_nodes_change_witness :
  ∃ q, q ∈ walked false [pod] ∧ addr q = [0; 0; 1] ∧ supported builder_a q = true.
Proof.
  apply (batch.only_collected_nodes_change builder_a publisher_ok in_order in_order
           in_order_perm in_order_perm [pod] false [0; 0; 1]).
  vm_compute. discriminate.
Defined.

(** The builder supports [a], non-strict mode would rewrite the value, and
    strict mode leaves it. *)
Lemma strict_leaves_unprefixed_witness :
  build.IsSupportedReference builder_a "a" = true ∧
  Value_at [0; 0; 1]
    (docs_after (ImageReferences builder_a publisher_ok in_order in_order
                   [unprefixed] false)) = Some "registry/a@sha256:0" ∧
  Value_at [0; 0; 1]
    (docs_after (ImageReferences builder_a publisher_ok in_order in_order
                   [unprefixed] true)) = Some "a".
Proof.
  split; [reflexivity|]. split; [vm_compute; reflexivity|].
  apply (batch.strict_leaves_unprefixed builder_a publisher_ok in_order in_order
           in_order_perm in_order_perm [unprefixed] [0; 0; 1] (scalar "a"));
    reflexivity.
Defined.

Lemma succeeds_iff_witness :
  err (ImageReferences builder_a publisher_ok in_order in_order [pod; pod] true) = None.
Proof.
  apply (proj2 (batch.succeeds_iff builder_a publisher_ok in_order in_order
                  in_order_perm in_order_perm [pod; pod] true)).
  split.
  - intros _ q Hq. vm_compute in Hq.
    repeat (apply elem_of_cons in Hq as [->|Hq]; [reflexivity|]).
    by apply elem_of_nil in Hq.
  - intros q Hq _. vm_compute in Hq.
    repeat (apply elem_of_cons in Hq as [->|Hq]; [by eexists|]).
    by apply elem_of_nil in Hq.
Defined.

Lemma errors_are_strict_or_external_witness :
  (false = true ∧
   ∃ q, q ∈ walked false [pod] ∧ supported builder_broken q = false ∧
        ErrExternal "build failed" = ErrStrict (strings.TrimSpace (Value (deref q)))) ∨
  (∃ r, CallBuild r ∈
          calls_made (ImageReferences builder_broken publisher_ok in_order in_order
                        [pod] false) ∧
        outcome builder_broken publisher_ok r = inl (ErrExternal "build failed")).
Proof.
  apply (batch.errors_are_strict_or_external builder_broken publisher_ok in_order in_order
           in_order_perm in_order_perm [pod] false (ErrExternal "build failed")).
  vm_compute. reflexivity.
Defined.

(** Two references, finished and ranged over in the one order and in the
    reverse order. *)
Lemma schedule_does_not_matter_witness :
  (err (ImageReferences builder_any publisher_ok in_order in_order [two_refs] true) = None ↔
   err (ImageReferences builder_any publisher_ok reverse reverse [two_refs] true) = None) ∧
  calls_made (ImageReferences builder_any publisher_ok in_order in_order [two_refs] true) ≡ₚ
    calls_made (ImageReferences builder_any publisher_ok reverse reverse [two_refs] true) ∧
  Value_at [0; 0; 3]
    (docs_after (ImageReferences builder_any publisher_ok in_order in_order
                   [two_refs] true)) =
  Value_at [0; 0; 3]
    (docs_after (ImageReferences builder_any publisher_ok reverse reverse
                   [two_refs] true)).
Proof.
  apply (batch.schedule_does_not_matter builder_any publisher_ok in_order reverse
           in_order reverse in_order_perm in_order_perm
           (λ l, reverse_perm l) (λ l, reverse_perm l) [two_refs] true [0; 0; 3]).
Defined.

(** A file whose second document does not decode: the first document, with
    its reference, has been decoded, and nothing is built. *)
Definition decode_broken (b : bytes) : list Node * option string :=
  ([pod], Some "did not find expected key").

Lemma early_error_makes_no_call_witness :
  (resolveFile parse_any no_stdin read_any decode_broken reject_all marshal_x
     in_order in_order "pod.yaml" builder_a publisher_ok "" false).2 = [].
Proof.
  apply (selection.early_error_makes_no_call parse_any no_stdin read_any decode_broken
           reject_all marshal_x in_order in_order "pod.yaml" builder_a publisher_ok ""
           false (DecodeFailed "did not find expected key")).
  - reflexivity.
  - exact I.
Defined.

Lemma selecting_nothing_is_no_error_witness :
  resolveFile parse_any no_stdin read_any decode_pod reject_all marshal_x
    in_order in_order "pod.yaml" builder_a publisher_ok "app=keep" true = (inr [], []).
Proof.
  apply (selection.selecting_nothing_is_no_error parse_any no_stdin read_any decode_pod
           reject_all marshal_x in_order in_order in_order_perm in_order_perm
           "pod.yaml" builder_a publisher_ok "app=keep" "app=keep" true [] [pod]).
  - discriminate.
  - reflexivity.
  - reflexivity.
  - reflexivity.
  - intros doc _. reflexivity.
Defined.

Lemma no_selector_keeps_every_document_witness :
  resolveFile parse_any no_stdin read_any decode_pod reject_all marshal_x
    in_order in_order "pod.yaml" builder_a publisher_ok "" false =
  (match err (ImageReferences builder_a publisher_ok in_order in_order [pod] false) with
   | Some e => inl (ErrorResolving e)
   | None =>
       encode_loop marshal_x [] true
         (docs_after (ImageReferences builder_a publisher_ok in_order in_order [pod] false))
   end,
   calls_made (ImageReferences builder_a publisher_ok in_order in_order [pod] false)) ∧
  length (docs_after (ImageReferences builder_a publisher_ok in_order in_order [pod] false)) =
  length [pod].
Proof.
  apply (selection.no_selector_keeps_every_document parse_any no_stdin read_any decode_pod
           reject_all marshal_x in_order in_order "pod.yaml" builder_a publisher_ok false
           [] [pod]); reflexivity.
Defined.

Lemma one_shot_return_is_complete_witness :
  (∀ i f, received second_first !! i = Some f →
          ∃ b ips, resolved_both i f = inr (b, ips)) ∧
  logged (default init (exec false resolved_both second_first init)) = [] ∧
  length (received second_first) =
    spawned (default init (exec false resolved_both second_first init)).
Proof.
  apply (loop.one_shot_return_is_complete false resolved_both second_first
           (default init (exec false resolved_both second_first init))).
  - reflexivity.
  - vm_compute. reflexivity.
  - vm_compute. reflexivity.
Defined.

(** The channel is closed and two resolutions are under way. *)
Definition two_pending : state :=
  mkSt false [mkSlot 0 "a.yaml" Pending; mkSlot 1 "b.yaml" Pending] 2 [] [] ∅ 0 Looping.

Lemma closed_channel_drains_witness :
  ∃ evs s', exec false resolved_both evs two_pending = Some s' ∧
    length evs ≤ 2 * length (futures two_pending) + 1 ∧
    (st s' = Returned ∨ (false = false ∧ st s' = Fatal)) ∧
    (st s' = Returned →
       futures s' = [] ∧
       out s' = out two_pending ++
                concat (loop.yield resolved_both <$> futures two_pending)).
Proof.
  apply (loop.closed_channel_drains false resolved_both two_pending); reflexivity.
Defined.

(** One file, whose resolution records one import path. *)
Definition resolved_paths (n : nat) (f : string) : file_error + (bytes * list string) :=
  inr ([Byte.x61], ["github.com/x/cmd"]).
Definition one_resolved : list event := [RecvFile "a.yaml"; Done 0].

Lemma sm_holds_resolved_import_paths_witness :
  ∃ n b, received one_resolved !! n = Some "a.yaml" ∧
         resolved_paths n "a.yaml" = inr (b, ["github.com/x/cmd"]).
Proof.
  apply (loop.sm_holds_resolved_import_paths true resolved_paths one_resolved
           (default init (exec true resolved_paths one_resolved init))).
  - vm_compute. reflexivity.
  - vm_compute. reflexivity.
Defined.

Lemma output_grows_by_whole_resources_witness :
  ∃ ext, out (default init (exec false resolved_both second_first init)) = out init ++ ext ∧
         (ext = [] ∨ delimiter `suffix_of` ext).
Proof.
  apply (loop.output_grows_by_whole_resources false resolved_both second_first init).
  vm_compute. reflexivity.
Defined.

(** Two files and the import paths their resolutions recorded. *)
Definition recorded : list (string * list string) :=
  [("a.yaml", ["r1"; "r2"]); ("b.yaml", ["r2"; "r3"])].
Definition changed : gset string := {[ "r1"; "r2" ]}.

Lemma resent_once_per_affected_import_path_witness :
  length (filter (λ a, a = Resend "a.yaml") (onAffected changed recorded)) =
  length (filter (λ ip, ip ∈ changed) ["r1"; "r2"]).
Proof.
  apply (callback.resent_once_per_affected_import_path changed recorded "a.yaml"
           ["r1"; "r2"]).
  - apply (bool_decide_unpack _). vm_compute. exact I.
  - left.
Defined.

Lemma resend_follows_invalidation_witness :
  ∃ before' ip value,
    [Invalidate "r1"; Resend "a.yaml"; Invalidate "r2"] = before' ++ [Invalidate ip] ∧
    ip ∈ changed ∧ ("a.yaml", value) ∈ recorded ∧ ip ∈ value.
Proof.
  apply (callback.resend_follows_invalidation changed recorded
           [Invalidate "r1"; Resend "a.yaml"; Invalidate "r2"] "a.yaml"
           [Invalidate "r2"; Resend "b.yaml"]).
  vm_compute. reflexivity.
Defined.

End cases.
